(** * Round Robin CPU scheduling: a shallow embedding of
    [cpu_scheduling_algorithms/round_robin_scheduling.cpp] and the
    properties of its simulation loop and of its table printer. *)

From Stdlib Require Import ZArith List Lia String Ascii Sorted Permutation.
From stdpp Require Import base gmap sets list strings.

Local Open Scope Z_scope.
Set Warnings "-clear-no-such-hyp".

(** ** Unsigned 32-bit arithmetic

    Every numeric field of the program is a [uint32_t].  Values are kept in
    [Z]; the operations reduce modulo [2^32] as the C++ ones do. *)
Module UInt32.

Definition modulus : Z := 2 ^ 32.

Definition max_value : Z := modulus - 1.

Definition in_range (z : Z) : Prop := 0 <= z < modulus.

Definition wrap (z : Z) : Z := z mod modulus.

Definition add (a b : Z) : Z := wrap (a + b).

Definition sub (a b : Z) : Z := wrap (a - b).

End UInt32.

(** ** Data model *)

(** [struct Process]. *)
Record Process : Type := mkProcess {
  id : Z;
  arrival_time : Z;
  burst_time : Z
}.

(** [struct ProcessResult : public Process]; the base sub-object is the
    field [process]. *)
Record ProcessResult : Type := mkProcessResult {
  process : Process;
  completion_time : Z;
  turn_around_time : Z;
  waiting_time : Z
}.

(** The constructor [ProcessResult(const Process&, uint32_t)]. *)
Definition ProcessResult_ctor (p : Process) (completion : Z) : ProcessResult :=
  let turn_around := UInt32.sub completion (arrival_time p) in
  {| process := p;
     completion_time := completion;
     turn_around_time := turn_around;
     waiting_time := UInt32.sub turn_around (burst_time p) |}.

(** [ProcessResult::operator==]. *)
Definition ProcessResult_eqb (a b : ProcessResult) : bool :=
  (id (process a) =? id (process b)) &&
  (arrival_time (process a) =? arrival_time (process b)) &&
  (burst_time (process a) =? burst_time (process b)) &&
  (completion_time a =? completion_time b) &&
  (turn_around_time a =? turn_around_time b) &&
  (waiting_time a =? waiting_time b).

(** Remaining burst time of a queued process ([using BTLeft = uint32_t]). *)
Abbreviation BTLeft := Z.

(** [CompareAT]. *)
Definition CompareAT (p1 p2 : Process) : bool :=
  arrival_time p1 <? arrival_time p2.

(** The inputs the C++ types admit: every field fits in 32 bits. *)
Definition wf_process (p : Process) : Prop :=
  UInt32.in_range (id p) /\
  UInt32.in_range (arrival_time p) /\
  UInt32.in_range (burst_time p).

(** ** The parts of the C++ standard library the program calls *)

Section StdAlgorithm.

Context {A : Type}.
Variable comp : A -> A -> bool.

(** The scan of [std::min_element]: [smallest] is replaced only by a
    strictly smaller element, so the first minimum wins. *)
Fixpoint min_element_from (smallest : A) (l : list A) : A :=
  match l with
  | [] => smallest
  | x :: l' => min_element_from (if comp x smallest then x else smallest) l'
  end.

(** [std::min_element]; [None] is the end iterator it returns on an empty
    range. *)
Definition min_element (l : list A) : option A :=
  match l with
  | [] => None
  | x :: l' => Some (min_element_from x l')
  end.

(** [std::sort] is modelled by an insertion sort.  The standard leaves the
    relative order of equivalent elements open; the theorems below rely
    only on the result being an ordered rearrangement. *)
Fixpoint sort_insert (x : A) (l : list A) : list A :=
  match l with
  | [] => [x]
  | y :: l' => if comp y x then y :: sort_insert x l' else x :: y :: l'
  end.

Fixpoint sort (l : list A) : list A :=
  match l with
  | [] => []
  | x :: l' => sort_insert x (sort l')
  end.

End StdAlgorithm.

(** ** The scheduler *)

(** One element of [std::queue<std::pair<Process, BTLeft>>]. *)
Definition Entry : Type := (Process * BTLeft)%type.

(** [CheckArriveProcess]: one pass over [processes]; a process that has
    arrived by [time_elapsed] and whose id is not in [arrived_process] is
    pushed with its whole burst time and its id is inserted. *)
Definition CheckArriveProcess (processes : list Process)
    (arrived_process : gset Z) (schedule : list Entry) (time_elapsed : Z)
    : gset Z * list Entry :=
  fold_left
    (fun (st : gset Z * list Entry) (p : Process) =>
       if (time_elapsed <? arrival_time p) || bool_decide (id p ∈ st.1)
       then st
       else ({[ id p ]} ∪ st.1, st.2 ++ [(p, burst_time p)]))
    processes (arrived_process, schedule).

(** The local variables of [RRExecute] that live across loop iterations. *)
Record State : Type := mkState {
  time_elapsed : Z;
  arrived_processes : gset Z;
  schedule : list Entry;
  results : list ProcessResult
}.

(** How a call ends: it returns, it runs into undefined behaviour, or the
    iteration budget of the model is used up. *)
Inductive outcome (A : Type) : Type :=
  | Returned (a : A)
  | Undefined
  | OutOfFuel.

Arguments Returned {A} a.
Arguments Undefined {A}.
Arguments OutOfFuel {A}.

Section Scheduler.

Variable processes : list Process.
Variable time_slice : Z.

(** The state reached when the [while] loop is entered for the first time:
    the clock is the arrival time of [*std::min_element(...)], and
    [CheckArriveProcess] has run once.  [None] when the range is empty and
    the end iterator would be dereferenced. *)
Definition RRInit : option State :=
  match min_element CompareAT processes with
  | None => None
  | Some first =>
      let t := arrival_time first in
      let '(arrived, sched) := CheckArriveProcess processes ∅ [] t in
      Some {| time_elapsed := t; arrived_processes := arrived;
              schedule := sched; results := [] |}
  end.

(** One iteration of the [while] loop; [None] when [schedule.empty()]. *)
Definition RRIteration (s : State) : option State :=
  match schedule s with
  | [] => None
  | (p, bt) :: rest =>
      let elapsed := if time_slice <? bt then time_slice else bt in
      let bt' := UInt32.sub bt elapsed in
      let t' := UInt32.add (time_elapsed s) elapsed in
      let '(arrived, sched) :=
        CheckArriveProcess processes (arrived_processes s) rest t' in
      if 0 <? bt'
      then Some {| time_elapsed := t'; arrived_processes := arrived;
                   schedule := sched ++ [(p, bt')]; results := results s |}
      else Some {| time_elapsed := t'; arrived_processes := arrived;
                   schedule := sched;
                   results := results s ++ [ProcessResult_ctor p t'] |}
  end.

(** The [while] loop, at most [fuel] iterations. *)
Fixpoint RRLoop (fuel : nat) (s : State) : outcome (list ProcessResult) :=
  match RRIteration s with
  | None => Returned (results s)
  | Some s' =>
      match fuel with
      | O => OutOfFuel
      | S fuel' => RRLoop fuel' s'
      end
  end.

(** [RRExecute]. *)
Definition RRExecute (fuel : nat) : outcome (list ProcessResult) :=
  match RRInit with
  | None => Undefined
  | Some s => RRLoop fuel s
  end.

End Scheduler.

(** ** The self-test *)

Definition test_processes : list Process :=
  [ mkProcess 0 70 3; mkProcess 1 9 2; mkProcess 2 3 39;
    mkProcess 3 5 29; mkProcess 4 30 90 ].

Definition kTimeSlice : Z := 3.

Definition correct_completion_times : list Z := [80; 14; 100; 82; 166].

(** [correct_results] as the loop of [Test] builds it. *)
Definition correct_results : list ProcessResult :=
  map (fun pc => ProcessResult_ctor (fst pc) (snd pc))
      (combine test_processes correct_completion_times).

Definition CompareAT_result (a b : ProcessResult) : bool :=
  CompareAT (process a) (process b).

(** [std::vector::operator==] over [ProcessResult::operator==]. *)
Fixpoint results_eqb (a b : list ProcessResult) : bool :=
  match a, b with
  | [], [] => true
  | x :: a', y :: b' => ProcessResult_eqb x y && results_eqb a' b'
  | _, _ => false
  end.

(** The condition of the [assert] in [Test]. *)
Definition Test_assertion (rs : list ProcessResult) : bool :=
  results_eqb (sort CompareAT_result rs) (sort CompareAT_result correct_results).

(** ** Instrumentation of the loop

    A quantum is one iteration of the loop seen from outside: which
    process was at the front, the clock when it was popped, how long it
    ran, and whether it was pushed back afterwards. *)
Record Quantum : Type := mkQuantum {
  q_id : Z;
  q_start : Z;
  q_length : Z;
  q_requeued : bool
}.

Definition RRQuantum (time_slice : Z) (s : State) : option Quantum :=
  match schedule s with
  | [] => None
  | (p, bt) :: _ =>
      let elapsed := if time_slice <? bt then time_slice else bt in
      Some {| q_id := id p; q_start := time_elapsed s; q_length := elapsed;
              q_requeued := 0 <? UInt32.sub bt elapsed |}
  end.

(** The quanta executed by [RRLoop fuel s], in order. *)
Fixpoint RRTrace (processes : list Process) (time_slice : Z)
    (fuel : nat) (s : State) : list Quantum :=
  match RRIteration processes time_slice s, RRQuantum time_slice s with
  | Some s', Some q =>
      match fuel with
      | O => []
      | S fuel' => q :: RRTrace processes time_slice fuel' s'
      end
  | _, _ => []
  end.

(** The quanta of a whole call. *)
Definition RRExecuteTrace (processes : list Process) (time_slice : Z)
    (fuel : nat) : list Quantum :=
  match RRInit processes with
  | None => []
  | Some s => RRTrace processes time_slice fuel s
  end.

(** States the loop head can be in. *)
Inductive reachable (processes : list Process) (time_slice : Z)
    : State -> Prop :=
  | reachable_init s :
      RRInit processes = Some s -> reachable processes time_slice s
  | reachable_step s s' :
      reachable processes time_slice s ->
      RRIteration processes time_slice s = Some s' ->
      reachable processes time_slice s'.

(** ** Preconditions and measures *)

Definition Zsum {A : Type} (f : A -> Z) (l : list A) : Z :=
  fold_right (fun x acc => f x + acc) 0 l.

(** Burst time still owed to the entries of the ready queue. *)
Definition queued_burst (sched : list Entry) : Z := Zsum snd sched.

(** Burst time of the processes whose id has not been admitted yet. *)
Definition pending_burst (processes : list Process) (arrived : gset Z) : Z :=
  Zsum (fun p => if bool_decide (id p ∈ arrived) then 0 else burst_time p)
       processes.

Definition remaining_work (processes : list Process) (s : State) : Z :=
  queued_burst (schedule s) + pending_burst processes (arrived_processes s).

Definition total_burst (processes : list Process) : Z :=
  Zsum burst_time processes.

(** The initial value of the clock (0 stands in for the empty list). *)
Definition start_time (processes : list Process) : Z :=
  match min_element CompareAT processes with
  | Some first => arrival_time first
  | None => 0
  end.

(** The preconditions the specification puts on a call. *)
Record Preconditions (processes : list Process) (time_slice : Z) : Prop := {
  pre_nonempty : processes <> [];
  pre_time_slice : 1 <= time_slice;
  pre_burst : Forall (fun p => 1 <= burst_time p) processes;
  pre_unique : List.NoDup (map id processes)
}.

(** The arguments are values of their C++ types. *)
Definition wf_input (processes : list Process) (time_slice : Z) : Prop :=
  Forall wf_process processes /\ UInt32.in_range time_slice.

(** The clock cannot wrap around: running every process back to back from
    the first arrival stays within 32 bits. *)
Definition clock_fits (processes : list Process) : Prop :=
  start_time processes + total_burst processes <= UInt32.max_value.

(** ** The table printer *)

Definition kCellWidth : nat := 17.

Definition newline : string := String (ascii_of_nat 10) EmptyString.

Fixpoint spaces (n : nat) : string :=
  match n with
  | O => EmptyString
  | S n' => String " " (spaces n')
  end.

(** [std::setw(width) << std::left << str] with the default fill: the text,
    then blanks up to [width]; a longer text is written whole. *)
Definition left_aligned (width : nat) (str : string) : string :=
  str +:+ spaces (width - String.length str).

Definition digit_char (d : Z) : ascii := ascii_of_nat (48 + Z.to_nat d).

(** Decimal digits, least significant first, pushed in front of [acc]. *)
Fixpoint to_string_aux (fuel : nat) (n : Z) (acc : string) : string :=
  let acc' := String (digit_char (n mod 10)) acc in
  match fuel with
  | O => acc'
  | S fuel' => if n / 10 =? 0 then acc' else to_string_aux fuel' (n / 10) acc'
  end.

(** [std::to_string] on a [uint32_t]: at most ten digits. *)
Definition to_string (n : Z) : string := to_string_aux 9 n EmptyString.

(** The lambda [PrintCell]; the stream is the text written so far. *)
Definition PrintCell (ostream : string) (str : string) : string :=
  ostream +:+ left_aligned kCellWidth str.

(** The body of the [for] loop of [operator<<]. *)
Definition print_row (ostream : string) (p : ProcessResult) : string :=
  let ostream := PrintCell ostream (to_string (id (process p))) in
  let ostream := PrintCell ostream (to_string (arrival_time (process p))) in
  let ostream := PrintCell ostream (to_string (burst_time (process p))) in
  let ostream := PrintCell ostream (to_string (completion_time p)) in
  let ostream := PrintCell ostream (to_string (turn_around_time p)) in
  let ostream := PrintCell ostream (to_string (waiting_time p)) in
  ostream +:+ newline.

(** [operator<<(std::ostream&, const std::vector<ProcessResult>&)]. *)
Definition operator_lshift (ostream : string) (results : list ProcessResult)
    : string :=
  let sorted := sort CompareAT_result results in
  let ostream := PrintCell ostream "Process ID" in
  let ostream := PrintCell ostream "Arrival Time" in
  let ostream := PrintCell ostream "Burst Time" in
  let ostream := PrintCell ostream "Completion Time" in
  let ostream := PrintCell ostream "Turnaround Time" in
  let ostream := PrintCell ostream "Waiting Time" in
  let ostream := ostream +:+ newline in
  fold_left print_row sorted ostream.

(** The table as the specification words it: a header line and one line
    per result, six cells a line. *)
Definition header_cells : list string :=
  [ "Process ID"; "Arrival Time"; "Burst Time"; "Completion Time";
    "Turnaround Time"; "Waiting Time" ]%string.

Definition row_cells (p : ProcessResult) : list string :=
  [ to_string (id (process p)); to_string (arrival_time (process p));
    to_string (burst_time (process p)); to_string (completion_time p);
    to_string (turn_around_time p); to_string (waiting_time p) ].

Definition concat_strings (l : list string) : string :=
  fold_right String.append EmptyString l.

Definition table_line (cells : list string) : string :=
  concat_strings (map (left_aligned kCellWidth) cells) +:+ newline.

Definition table (rows : list ProcessResult) : string :=
  concat_strings (map table_line (header_cells :: map row_cells rows)).

Definition wf_result (r : ProcessResult) : Prop :=
  wf_process (process r) /\ UInt32.in_range (completion_time r) /\
  UInt32.in_range (turn_around_time r) /\ UInt32.in_range (waiting_time r).

(** ** Auxiliary notions used by the proofs *)

Definition entry_of (p : Process) : Entry := (p, burst_time p).

(** The processes one call of [CheckArriveProcess] pushes, in order. *)
Fixpoint admitted (l : list Process) (arrived : gset Z) (t : Z)
    : list Process :=
  match l with
  | [] => []
  | p :: l' =>
      if (t <? arrival_time p) || bool_decide (id p ∈ arrived)
      then admitted l' arrived t
      else p :: admitted l' ({[ id p ]} ∪ arrived) t
  end.

Definition ids_of (l : list Process) : gset Z := list_to_set (map id l).

(** Every queued entry belongs to an input process and still owes between
    one tick and its whole burst time. *)
Definition queue_inv (processes : list Process) (s : State) : Prop :=
  Forall (fun e : Entry => In e.1 processes /\ 1 <= e.2 <= burst_time e.1)
         (schedule s).

(** What the call returns on the self-test, in the order of completion. *)
Definition reference_results : list ProcessResult :=
  [ mkProcessResult (mkProcess 1 9 2) 14 5 3;
    mkProcessResult (mkProcess 0 70 3) 80 10 7;
    mkProcessResult (mkProcess 3 5 29) 82 77 48;
    mkProcessResult (mkProcess 2 3 39) 100 97 58;
    mkProcessResult (mkProcess 4 30 90) 166 136 46 ].

(** Two processes separated by an idle period of the processor. *)
Definition idle_gap_processes : list Process :=
  [ mkProcess 0 0 1; mkProcess 1 10 1 ].

(** A single process and no quantum length. *)
Definition lone_process : list Process := [ mkProcess 0 0 1 ].

(** A process that needs two quanta, and two processes that arrive at the
    tick its first quantum ends. *)
Definition tie_processes : list Process :=
  [ mkProcess 0 0 5; mkProcess 1 3 1; mkProcess 2 3 1 ].

(** The call does not come back, however many iterations it is given. *)
Definition never_returns (processes : list Process) (time_slice : Z) : Prop :=
  forall fuel, RRExecute processes time_slice fuel = OutOfFuel.

(** The loop head states of the first two iterations on [tie_processes]. *)
Definition tie_state0 : State :=
  {| time_elapsed := 0; arrived_processes := {[ 0 ]};
     schedule := [ (mkProcess 0 0 5, 5) ]; results := [] |}.

Definition tie_state1 : State :=
  {| time_elapsed := 3; arrived_processes := {[ 0; 1; 2 ]};
     schedule := [ (mkProcess 1 3 1, 1); (mkProcess 2 3 1, 1);
                   (mkProcess 0 0 5, 2) ];
     results := [] |}.

(** What stays true from one iteration to the next when the time slice is
    zero: the queue is not empty, every entry owes at least one tick, and
    no further process can be admitted at the current clock value. *)
Definition stuck (processes : list Process) (s : State) : Prop :=
  schedule s <> [] /\
  Forall (fun e : Entry => 1 <= e.2 < UInt32.modulus) (schedule s) /\
  UInt32.in_range (time_elapsed s) /\
  (forall p, In p processes -> arrival_time p <= time_elapsed s ->
             id p ∈ arrived_processes s).

(** Time the processor gave to other processes in quanta that started
    once [p] had arrived. *)
Definition foreign_quantum (p : Process) (q : Quantum) : Z :=
  if negb (q_id q =? id p) && (arrival_time p <=? q_start q)
  then q_length q else 0.

Definition foreign_time (p : Process) (tr : list Quantum) : Z :=
  Zsum (foreign_quantum p) tr.

(** A result whose fields are the exact differences, reached no earlier
    than arrival plus burst, and, when reached exactly then, with no quantum
    of another process since the arrival. *)
Definition result_ok (processes : list Process) (tr : list Quantum)
    (now : Z) (r : ProcessResult) : Prop :=
  In (process r) processes /\
  turn_around_time r = completion_time r - arrival_time (process r) /\
  waiting_time r = turn_around_time r - burst_time (process r) /\
  arrival_time (process r) + burst_time (process r) <= completion_time r /\
  completion_time r <= now /\
  (completion_time r = arrival_time (process r) + burst_time (process r) ->
   forall q, In q tr ->
     arrival_time (process r) <= q_start q < completion_time r ->
     q_id q = id (process r)).

(** The invariant of the loop when the clock cannot wrap; [tr] is the
    list of quanta executed so far. *)
Record run_inv (processes : list Process) (tr : list Quantum) (s : State)
    : Prop := {
  inv_clock :
    0 <= time_elapsed s /\
    time_elapsed s + remaining_work processes s <=
      start_time processes + total_burst processes;
  inv_quanta :
    Forall (fun q => 1 <= q_length q /\
                     q_start q + q_length q <= time_elapsed s) tr;
  inv_pending :
    forall p, In p processes -> id p ∉ arrived_processes s ->
              time_elapsed s < arrival_time p;
  inv_queue :
    Forall (fun e : Entry =>
              arrival_time e.1 + (burst_time e.1 - e.2) + foreign_time e.1 tr
                <= time_elapsed s) (schedule s);
  inv_results : Forall (result_ok processes tr (time_elapsed s)) (results s);
  inv_sorted : StronglySorted Z.le (map completion_time (results s))
}.

(** A process at the very end of the 32-bit clock. *)
Definition late_process : list Process := [ mkProcess 0 4294967295 2 ].

(** Two processes whose execution crosses the end of the 32-bit clock. *)
Definition late_processes : list Process :=
  [ mkProcess 0 4294967294 1; mkProcess 1 4294967294 2 ].

(** One process that needs two quanta. *)
Definition single_process : list Process := [ mkProcess 0 0 5 ].

(** Two results to print, given out of order. *)
Definition sample_results : list ProcessResult :=
  [ ProcessResult_ctor (mkProcess 0 70 3) 80;
    ProcessResult_ctor (mkProcess 1 9 2) 14 ].

(** Order of two results by arrival time, as the table lists them. *)
Definition arrives_no_later (a b : ProcessResult) : Prop :=
  arrival_time (process a) <= arrival_time (process b).

(** The value read from a string, starting from the value [a] of the
    digits already read. *)
Definition decimal_from (a : Z) (s : string) : Z :=
  fold_left (fun acc c => 10 * acc + (Z.of_nat (nat_of_ascii c) - 48))
            (list_ascii_of_string s) a.

(** The six numbers of a result, in the order of the columns. *)
Definition row_values (p : ProcessResult) : list Z :=
  [ id (process p); arrival_time (process p); burst_time (process p);
    completion_time p; turn_around_time p; waiting_time p ].

(** A cell of the table: the text first, blanks after it, [kCellWidth]
    characters in all. *)
Definition cell_ok (text : string) : Prop :=
  left_aligned kCellWidth text =
    text +:+ spaces (kCellWidth - String.length text) /\
  String.length (left_aligned kCellWidth text) = kCellWidth.

(** The test of the loop body of [CheckArriveProcess], negated: the
    process has arrived by [t] and its id is not in the set. *)
Definition newly_arrived (arrived : gset Z) (t : Z) (p : Process) : bool :=
  negb ((t <? arrival_time p) || bool_decide (id p ∈ arrived)).

(** A process of the self-test and a completion time, for the examples. *)
Definition sample_process : Process := mkProcess 3 5 29.

(** The ids in the queue of a state and in a list of results. *)
Definition queue_ids (s : State) : list Z :=
  map (fun e : Entry => id e.1) (schedule s).

Definition result_ids (rs : list ProcessResult) : list Z :=
  map (fun r => id (process r)) rs.

(** Time the processor gave to [p] in the quanta of [tr]. *)
Definition own_quantum (p : Process) (q : Quantum) : Z :=
  if q_id q =? id p then q_length q else 0.

Definition own_time (p : Process) (tr : list Quantum) : Z :=
  Zsum (own_quantum p) tr.

(** Number of quanta of [tr] that ran [p]. *)
Definition own_count (p : Process) (tr : list Quantum) : Z :=
  Zsum (fun q => if q_id q =? id p then 1 else 0) tr.

(** Bookkeeping kept by every iteration, whether or not the clock wraps:
    which ids are where, and how much processor time each one has had. *)
Record service_inv (processes : list Process) (time_slice : Z)
    (tr : list Quantum) (s : State) : Prop := {
  sv_queue : queue_inv processes s;
  sv_results : Forall (fun r => In (process r) processes) (results s);
  sv_nodup : NoDup (queue_ids s ++ result_ids (results s));
  sv_arrived :
    forall i, i ∈ arrived_processes s <->
              i ∈ queue_ids s ++ result_ids (results s);
  sv_early :
    forall p, In p processes -> arrival_time p <= start_time processes ->
              id p ∈ arrived_processes s;
  sv_quanta :
    Forall (fun q => 1 <= q_length q <= time_slice /\
                     (q_requeued q = true -> q_length q = time_slice) /\
                     q_id q ∈ arrived_processes s) tr;
  sv_queue_time :
    Forall (fun e : Entry => own_time e.1 tr = burst_time e.1 - e.2)
           (schedule s);
  sv_result_time :
    Forall (fun r => own_time (process r) tr = burst_time (process r))
           (results s);
  sv_total :
    Zsum q_length tr + queued_burst (schedule s) =
    Zsum (fun e : Entry => burst_time e.1) (schedule s) +
    Zsum (fun r => burst_time (process r)) (results s);
  sv_queue_count :
    Forall (fun e : Entry =>
              own_count e.1 tr * time_slice = burst_time e.1 - e.2)
           (schedule s);
  sv_result_count :
    Forall (fun r =>
              (own_count (process r) tr - 1) * time_slice
                < burst_time (process r)
                <= own_count (process r) tr * time_slice)
           (results s);
  sv_built :
    Forall (fun r => r = ProcessResult_ctor (process r) (completion_time r) /\
                     UInt32.in_range (completion_time r))
           (results s)
}.

(** The quanta executed so far and the work still to be done never
    exceed the sum of the burst times. *)
Definition budget_inv (processes : list Process) (tr : list Quantum)
    (s : State) : Prop :=
  queue_inv processes s /\
  Forall (fun q => 1 <= q_length q) tr /\
  Zsum q_length tr + remaining_work processes s <= total_burst processes.

(** The ids of the quanta of a run in which no process is pushed back. *)
Definition run_once_inv (processes : list Process) (tr : list Quantum)
    (s : State) : Prop :=
  queue_inv processes s /\
  map q_id tr = result_ids (results s) /\
  Forall (fun q => q_requeued q = false) tr.

(** Arrival times 5, 5 and 5: everything is there when the clock starts. *)
Definition together_processes : list Process :=
  [ mkProcess 0 5 4; mkProcess 1 5 2; mkProcess 2 5 7 ].

(** What the call returns on [together_processes] with a time slice of 3. *)
Definition together_results : list ProcessResult :=
  [ mkProcessResult (mkProcess 1 5 2) 10 5 3;
    mkProcessResult (mkProcess 0 5 4) 14 9 5;
    mkProcessResult (mkProcess 2 5 7) 18 13 6 ].

(** Two processes whose burst times do not exceed a time slice of 3. *)
Definition short_processes : list Process :=
  [ mkProcess 0 0 2; mkProcess 1 1 3 ].

Definition short_results : list ProcessResult :=
  [ mkProcessResult (mkProcess 0 0 2) 2 2 0;
    mkProcessResult (mkProcess 1 1 3) 5 4 1 ].

(** Where a gap-free sequence of quanta that starts at [from] ends;
    [None] when some quantum does not start where the one before it
    ended. *)
Fixpoint trace_end (from : Z) (tr : list Quantum) : option Z :=
  match tr with
  | [] => Some from
  | q :: tr' =>
      if q_start q =? from then trace_end (from + q_length q) tr' else None
  end.

(** What the iterations keep besides [run_inv] when the clock cannot
    wrap: the quanta follow one another without a gap up to the current
    clock value, and once the queue is empty some result was completed at
    that very value. *)
Record clock_inv (processes : list Process) (tr : list Quantum) (s : State)
    : Prop := {
  ck_run : run_inv processes tr s;
  ck_trace : trace_end (start_time processes) tr = Some (time_elapsed s);
  ck_last :
    schedule s <> [] \/
    Exists (fun r => completion_time r = time_elapsed s) (results s)
}.

(** The arrival times of a list of results. *)
Definition arrival_times (rs : list ProcessResult) : list Z :=
  map (fun r => arrival_time (process r)) rs.

(** Number of characters of one line of the table: six cells and the
    end of line. *)
Definition kLineWidth : nat := 6 * kCellWidth + 1.

(** An input in which the id 0 occurs twice. *)
Definition twin_processes : list Process :=
  [ mkProcess 0 0 2; mkProcess 0 1 3; mkProcess 1 1 1 ].

(** [k] iterations of the loop in a row; [None] when the queue runs
    empty before that. *)
Fixpoint RRSteps (processes : list Process) (time_slice : Z) (k : nat)
    (s : State) : option State :=
  match k with
  | O => Some s
  | S k' =>
      match RRIteration processes time_slice s with
      | None => None
      | Some s' => RRSteps processes time_slice k' s'
      end
  end.


(** * Properties *)

(** ** Arithmetic modulo [2^32] *)

Lemma wrap_small z : UInt32.in_range z -> UInt32.wrap z = z.
Proof. unfold UInt32.in_range, UInt32.wrap. intros H. apply Z.mod_small. exact H. Qed.

Lemma add_small a b :
  0 <= a + b <= UInt32.max_value -> UInt32.add a b = a + b.
Proof.
  intros H. unfold UInt32.add. apply wrap_small.
  unfold UInt32.in_range, UInt32.max_value in *. lia.
Qed.

Lemma sub_small a b :
  0 <= b <= a -> a < UInt32.modulus -> UInt32.sub a b = a - b.
Proof.
  intros H1 H2. unfold UInt32.sub. apply wrap_small.
  unfold UInt32.in_range. lia.
Qed.

(** ** Sums *)

Lemma Zsum_app {A} (f : A -> Z) l1 l2 :
  Zsum f (l1 ++ l2) = Zsum f l1 + Zsum f l2.
Proof. induction l1 as [|x l1 IH]; simpl; [reflexivity | rewrite IH; lia]. Qed.

Lemma Zsum_nonneg {A} (f : A -> Z) l :
  Forall (fun x => 0 <= f x) l -> 0 <= Zsum f l.
Proof. induction 1; simpl; lia. Qed.

(** ** [std::min_element] *)

Lemma min_element_from_spec (x : Process) l :
  let m := min_element_from CompareAT x l in
  In m (x :: l) /\ Forall (fun p => arrival_time m <= arrival_time p) (x :: l).
Proof.
  revert x. induction l as [|y l IH]; intros x; simpl.
  - split; [left; reflexivity | repeat constructor; lia].
  - specialize (IH (if CompareAT y x then y else x)). simpl in IH.
    destruct IH as [Hin Hall]. unfold CompareAT in *.
    apply Forall_cons_iff in Hall as [Hhd Htl].
    destruct (Z.ltb_spec (arrival_time y) (arrival_time x)) as [Hlt|Hge].
    + split; [destruct Hin as [<-|Hin]; auto |].
      constructor; [lia|]. constructor; [lia|]. exact Htl.
    + split; [destruct Hin as [<-|Hin]; auto |].
      constructor; [lia|]. constructor; [lia|]. exact Htl.
Qed.

Lemma min_element_spec (l : list Process) :
  l <> [] ->
  exists first, min_element CompareAT l = Some first /\ In first l /\
    Forall (fun p => arrival_time first <= arrival_time p) l.
Proof.
  destruct l as [|x l]; [congruence|]. intros _.
  exists (min_element_from CompareAT x l). split; [reflexivity|].
  apply min_element_from_spec.
Qed.

(** ** [CheckArriveProcess] *)

Lemma CheckArriveProcess_admitted l arrived sched t :
  CheckArriveProcess l arrived sched t =
  (ids_of (admitted l arrived t) ∪ arrived,
   sched ++ map entry_of (admitted l arrived t)).
Proof.
  unfold CheckArriveProcess, ids_of.
  revert arrived sched. induction l as [|p l IH]; intros arrived sched; simpl.
  - rewrite app_nil_r. f_equal. set_solver.
  - destruct ((t <? arrival_time p) || bool_decide (id p ∈ arrived)); simpl.
    + apply IH.
    + rewrite IH. rewrite <- app_assoc. simpl. f_equal. set_solver.
Qed.

Lemma admitted_In l arrived t p :
  In p (admitted l arrived t) ->
  In p l /\ arrival_time p <= t /\ id p ∉ arrived.
Proof.
  revert arrived. induction l as [|x l IH]; intros arrived; simpl; [tauto|].
  destruct (Z.ltb_spec t (arrival_time x)) as [Hlt|Hle]; simpl.
  - intros H. apply IH in H. tauto.
  - destruct (bool_decide_reflect (id x ∈ arrived)) as [Hin|Hnin].
    + intros H. apply IH in H. tauto.
    + intros [<-|H]; [tauto|]. apply IH in H.
      destruct H as (H1 & H2 & H3). repeat split; auto. set_solver.
Qed.

Lemma admitted_covers l arrived t p :
  In p l -> arrival_time p <= t ->
  id p ∈ ids_of (admitted l arrived t) ∪ arrived.
Proof.
  unfold ids_of.
  revert arrived. induction l as [|x l IH]; intros arrived; simpl; [tauto|].
  intros [->|Hin] Hle.
  - destruct (Z.ltb_spec t (arrival_time p)); [lia|]. simpl.
    destruct (bool_decide_reflect (id p ∈ arrived)); simpl; set_solver.
  - specialize (IH arrived Hin Hle) as IH1.
    destruct ((t <? arrival_time x) || bool_decide (id x ∈ arrived)); [exact IH1|].
    specialize (IH ({[ id x ]} ∪ arrived) Hin Hle). simpl. set_solver.
Qed.

Lemma admitted_unique l arrived t p :
  List.NoDup (map id l) -> In p l -> arrival_time p <= t -> id p ∉ arrived ->
  In p (admitted l arrived t).
Proof.
  revert arrived. induction l as [|x l IH]; intros arrived Hnd; simpl; [tauto|].
  simpl in Hnd. apply NoDup_cons_iff in Hnd as [Hx Hnd].
  intros [->|Hin] Hle Hnew.
  - destruct (Z.ltb_spec t (arrival_time p)); [lia|]. simpl.
    destruct (bool_decide_reflect (id p ∈ arrived)); [tauto|]. left; reflexivity.
  - assert (Hne : id p <> id x).
    { intros Heq. apply Hx. rewrite <- Heq. apply in_map. exact Hin. }
    destruct ((t <? arrival_time x) || bool_decide (id x ∈ arrived)).
    + apply IH; auto.
    + right. apply IH; auto. set_solver.
Qed.

Lemma admitted_nil l arrived t :
  (forall p, In p l -> arrival_time p <= t -> id p ∈ arrived) ->
  admitted l arrived t = [].
Proof.
  induction l as [|x l IH]; intros H; simpl; [reflexivity|].
  destruct (Z.ltb_spec t (arrival_time x)) as [Hlt|Hle]; simpl.
  - apply IH. intros p Hp. apply H. right; exact Hp.
  - rewrite bool_decide_eq_true_2 by (apply H; [left; reflexivity | exact Hle]).
    apply IH. intros p Hp. apply H. right; exact Hp.
Qed.

Lemma ids_of_cons p l : ids_of (p :: l) = {[ id p ]} ∪ ids_of l.
Proof. reflexivity. Qed.

(** ** Work that is still to be done *)

Lemma pending_burst_mono l (a a' : gset Z) :
  Forall (fun p => 0 <= burst_time p) l -> a ⊆ a' ->
  pending_burst l a' <= pending_burst l a.
Proof.
  intros Hl Hsub. unfold pending_burst.
  induction Hl as [|x l Hx Hl IH]; simpl; [lia|].
  destruct (bool_decide_reflect (id x ∈ a)) as [Hin|Hnin].
  - rewrite bool_decide_eq_true_2 by set_solver. lia.
  - destruct (bool_decide (id x ∈ a')); lia.
Qed.

Lemma pending_burst_insert l (a : gset Z) p :
  Forall (fun p => 0 <= burst_time p) l -> In p l -> id p ∉ a ->
  burst_time p + pending_burst l ({[ id p ]} ∪ a) <= pending_burst l a.
Proof.
  intros Hl. induction Hl as [|x l Hx Hl IH]; simpl; [tauto|].
  intros [->|Hin] Hnew.
  - assert (Hsub : a ⊆ {[ id p ]} ∪ a) by set_solver.
    assert (Hm := pending_burst_mono l a ({[ id p ]} ∪ a) Hl Hsub).
    unfold pending_burst in *. simpl.
    rewrite bool_decide_eq_true_2 by set_solver.
    rewrite (bool_decide_eq_false_2 (id p ∈ a)) by exact Hnew.
    lia.
  - specialize (IH Hin Hnew). unfold pending_burst in *. simpl.
    destruct (bool_decide_reflect (id x ∈ a)) as [Hxa|Hxa].
    + rewrite bool_decide_eq_true_2 by set_solver. lia.
    + destruct (bool_decide (id x ∈ {[ id p ]} ∪ a)); lia.
Qed.

Lemma pending_burst_nonneg l (a : gset Z) :
  Forall (fun p => 0 <= burst_time p) l -> 0 <= pending_burst l a.
Proof.
  intros Hl. unfold pending_burst. apply Zsum_nonneg.
  eapply List.Forall_impl; [|exact Hl]. simpl. intros x Hx.
  destruct (bool_decide (id x ∈ a)); lia.
Qed.

Lemma pending_burst_empty l : pending_burst l ∅ = total_burst l.
Proof.
  unfold pending_burst, total_burst.
  induction l as [|x l IH]; simpl; [reflexivity|]. rewrite IH.
  rewrite bool_decide_eq_false_2 by set_solver. reflexivity.
Qed.

(** What an admission pass moves into the queue, it takes out of the
    pending work. *)
Lemma pending_burst_admitted ps l (a : gset Z) t :
  Forall (fun p => 0 <= burst_time p) ps ->
  (forall p, In p l -> In p ps) ->
  Zsum burst_time (admitted l a t) +
    pending_burst ps (ids_of (admitted l a t) ∪ a) <= pending_burst ps a.
Proof.
  intros Hps. revert a. induction l as [|x l IH]; intros a Hsub; simpl.
  - replace (ids_of [] ∪ a) with a by (unfold ids_of; set_solver). lia.
  - assert (Hsub' : forall p, In p l -> In p ps) by (intros p Hp; apply Hsub; right; exact Hp).
    destruct (Z.ltb_spec t (arrival_time x)) as [Hlt|Hle]; simpl.
    { apply IH; exact Hsub'. }
    destruct (bool_decide_reflect (id x ∈ a)) as [Hin|Hnin].
    { apply IH; exact Hsub'. }
    simpl. rewrite ids_of_cons.
    replace ({[ id x ]} ∪ ids_of (admitted l ({[ id x ]} ∪ a) t) ∪ a)
      with (ids_of (admitted l ({[ id x ]} ∪ a) t) ∪ ({[ id x ]} ∪ a))
      by set_solver.
    specialize (IH ({[ id x ]} ∪ a) Hsub').
    assert (Hx := pending_burst_insert ps a x Hps (Hsub x (or_introl eq_refl)) Hnin).
    lia.
Qed.

Lemma wf_burst_nonneg ps :
  Forall wf_process ps -> Forall (fun p => 0 <= burst_time p) ps.
Proof.
  apply List.Forall_impl. intros p (_ & _ & H). unfold UInt32.in_range in H. lia.
Qed.

Lemma queued_burst_lower sched ps :
  Forall (fun e : Entry => In e.1 ps /\ 1 <= e.2 <= burst_time e.1) sched ->
  Z.of_nat (length sched) <= queued_burst sched.
Proof.
  unfold queued_burst, Zsum. induction 1 as [|e l [_ He] Hl IH]; [simpl; lia|].
  cbn [length fold_right]. rewrite Nat2Z.inj_succ. lia.
Qed.

Lemma queued_burst_app l1 l2 :
  queued_burst (l1 ++ l2) = queued_burst l1 + queued_burst l2.
Proof. apply Zsum_app. Qed.

Lemma queued_burst_entries l :
  queued_burst (map entry_of l) = Zsum burst_time l.
Proof.
  unfold queued_burst. induction l as [|x l IH]; simpl; [reflexivity|].
  rewrite IH. reflexivity.
Qed.

Lemma queued_burst_cons p bt l :
  queued_burst ((p, bt) :: l) = bt + queued_burst l.
Proof. reflexivity. Qed.

(** ** One iteration, case by case *)

Lemma RRIteration_empty ps ts s :
  schedule s = [] <-> RRIteration ps ts s = None.
Proof.
  unfold RRIteration. destruct (schedule s) as [|[p bt] rest]; [tauto|].
  rewrite CheckArriveProcess_admitted.
  split; [discriminate|]. destruct (0 <? _); discriminate.
Qed.

Lemma RRIteration_cases ps ts s s' :
  wf_input ps ts -> 1 <= ts -> queue_inv ps s ->
  RRIteration ps ts s = Some s' ->
  exists p bt rest e,
    schedule s = (p, bt) :: rest /\ e = Z.min ts bt /\ 1 <= e <= bt /\
    time_elapsed s' = UInt32.add (time_elapsed s) e /\
    let adm := admitted ps (arrived_processes s) (time_elapsed s') in
    arrived_processes s' = ids_of adm ∪ arrived_processes s /\
    ((e < bt /\ schedule s' = rest ++ map entry_of adm ++ [(p, bt - e)] /\
      results s' = results s) \/
     (e = bt /\ schedule s' = rest ++ map entry_of adm /\
      results s' = results s ++ [ProcessResult_ctor p (time_elapsed s')])).
Proof.
  intros [Hwf Hts] Hts1 Hq. unfold RRIteration, queue_inv in *.
  destruct (schedule s) as [|[p bt] rest]; [discriminate|].
  apply Forall_cons_iff in Hq as [[Hp Hbt] _]. simpl in Hp, Hbt.
  rewrite CheckArriveProcess_admitted.
  assert (Hr : bt < UInt32.modulus).
  { rewrite List.Forall_forall in Hwf. destruct (Hwf p Hp) as (_ & _ & H).
    unfold UInt32.in_range in H. lia. }
  set (e := if ts <? bt then ts else bt).
  assert (He : e = Z.min ts bt).
  { subst e. destruct (Z.ltb_spec ts bt); lia. }
  rewrite (sub_small bt e) by lia.
  intros H. exists p, bt, rest, e.
  destruct (Z.ltb_spec 0 (bt - e)) as [Hpos|Hzero]; inversion H; subst s'; clear H; simpl.
  - split; [reflexivity|]. split; [exact He|]. split; [lia|]. split; [reflexivity|].
    split; [reflexivity|]. left. rewrite <- app_assoc. auto with zarith.
  - split; [reflexivity|]. split; [exact He|]. split; [lia|]. split; [reflexivity|].
    split; [reflexivity|]. right. split; [lia|]. split; reflexivity.
Qed.

Lemma RRInit_cases ps s :
  RRInit ps = Some s ->
  exists first,
    min_element CompareAT ps = Some first /\
    time_elapsed s = arrival_time first /\
    arrived_processes s = ids_of (admitted ps ∅ (arrival_time first)) /\
    schedule s = map entry_of (admitted ps ∅ (arrival_time first)) /\
    results s = [].
Proof.
  unfold RRInit. destruct (min_element CompareAT ps) as [first|]; [|discriminate].
  rewrite CheckArriveProcess_admitted. intros H. inversion H; subst s; clear H.
  exists first. simpl. repeat split. set_solver.
Qed.

Lemma RRInit_defined ps :
  ps <> [] -> exists s, RRInit ps = Some s.
Proof.
  intros Hne. destruct (min_element_spec ps Hne) as (first & Hmin & _).
  unfold RRInit. rewrite Hmin. rewrite CheckArriveProcess_admitted. eauto.
Qed.

(** ** The queue invariant *)

Lemma admitted_entries_ok ps a t :
  Forall (fun p => 1 <= burst_time p) ps ->
  Forall (fun e : Entry => In e.1 ps /\ 1 <= e.2 <= burst_time e.1)
         (map entry_of (admitted ps a t)).
Proof.
  intros Hb. rewrite List.Forall_forall. intros e He.
  apply in_map_iff in He as (p & <- & Hp). apply admitted_In in Hp as (Hp & _).
  rewrite List.Forall_forall in Hb. specialize (Hb p Hp). simpl. split; [exact Hp | lia].
Qed.

Lemma RRInit_queue_inv ps s :
  Forall (fun p => 1 <= burst_time p) ps ->
  RRInit ps = Some s -> queue_inv ps s.
Proof.
  intros Hb Hinit. apply RRInit_cases in Hinit as (first & _ & _ & _ & Hs & _).
  unfold queue_inv. rewrite Hs. apply admitted_entries_ok. exact Hb.
Qed.

Lemma RRIteration_queue_inv ps ts s s' :
  wf_input ps ts -> 1 <= ts ->
  Forall (fun p => 1 <= burst_time p) ps ->
  queue_inv ps s -> RRIteration ps ts s = Some s' -> queue_inv ps s'.
Proof.
  intros Hwf Hts Hb Hq Hstep.
  destruct (RRIteration_cases _ _ _ _ Hwf Hts Hq Hstep)
    as (p & bt & rest & e & Hs & He & Hrange & Ht & Ha & Hcase).
  unfold queue_inv in *. rewrite Hs in Hq.
  apply Forall_cons_iff in Hq as [[Hp Hbt] Hrest]. simpl in Hp, Hbt.
  destruct Hcase as [(Hlt & Hs' & _)|(Heq & Hs' & _)]; rewrite Hs'.
  - apply Forall_app; split; [exact Hrest|].
    apply Forall_app; split; [apply admitted_entries_ok; exact Hb|].
    constructor; [|constructor]. simpl. split; [exact Hp | lia].
  - apply Forall_app; split; [exact Hrest|]. apply admitted_entries_ok; exact Hb.
Qed.

Lemma reachable_queue_inv ps ts s :
  wf_input ps ts -> 1 <= ts ->
  Forall (fun p => 1 <= burst_time p) ps ->
  reachable ps ts s -> queue_inv ps s.
Proof.
  intros Hwf Hts Hb. induction 1 as [s Hinit|s s' _ IH Hstep].
  - eapply RRInit_queue_inv; eauto.
  - eapply RRIteration_queue_inv; eauto.
Qed.

(** ** Termination *)

Lemma remaining_work_nonneg ps s :
  Forall wf_process ps -> queue_inv ps s -> 0 <= remaining_work ps s.
Proof.
  intros Hwf Hq. unfold remaining_work.
  assert (H1 := queued_burst_lower _ _ Hq).
  assert (H2 := pending_burst_nonneg ps (arrived_processes s) (wf_burst_nonneg _ Hwf)).
  lia.
Qed.

(** An iteration that runs the front process for [e] ticks takes [e] off
    the remaining work. *)
Lemma RRIteration_remaining_work ps ts s s' :
  wf_input ps ts -> 1 <= ts -> queue_inv ps s ->
  RRIteration ps ts s = Some s' ->
  remaining_work ps s' < remaining_work ps s.
Proof.
  intros Hwf Hts Hq Hstep.
  destruct (RRIteration_cases _ _ _ _ Hwf Hts Hq Hstep)
    as (p & bt & rest & e & Hs & He & Hrange & Ht & Ha & Hcase).
  destruct Hwf as [Hwf _].
  assert (Hadm := pending_burst_admitted ps ps (arrived_processes s)
                    (time_elapsed s') (wf_burst_nonneg _ Hwf) (fun _ H => H)).
  unfold remaining_work. rewrite Ha, Hs.
  destruct Hcase as [(Hlt & Hs' & _)|(Heq & Hs' & _)]; rewrite Hs';
    rewrite ?queued_burst_app, queued_burst_entries, ?queued_burst_cons;
    change (queued_burst []) with 0; lia.
Qed.

Lemma RRLoop_terminates ps ts fuel s :
  wf_input ps ts -> 1 <= ts ->
  Forall (fun p => 1 <= burst_time p) ps ->
  queue_inv ps s ->
  remaining_work ps s <= Z.of_nat fuel ->
  exists rs, RRLoop ps ts fuel s = Returned rs.
Proof.
  intros Hwf Hts Hb. revert s.
  induction fuel as [|fuel IH]; intros s Hq Hm; simpl.
  - destruct (RRIteration ps ts s) as [s'|] eqn:Hstep; [|eauto].
    assert (H1 := RRIteration_remaining_work _ _ _ _ Hwf Hts Hq Hstep).
    assert (H2 := remaining_work_nonneg ps s' (proj1 Hwf)
                    (RRIteration_queue_inv _ _ _ _ Hwf Hts Hb Hq Hstep)).
    lia.
  - destruct (RRIteration ps ts s) as [s'|] eqn:Hstep; [|eauto].
    apply IH.
    + eapply RRIteration_queue_inv; eauto.
    + assert (H1 := RRIteration_remaining_work _ _ _ _ Hwf Hts Hq Hstep). lia.
Qed.

Lemma RRInit_remaining_work ps s :
  Forall wf_process ps -> RRInit ps = Some s ->
  remaining_work ps s <= total_burst ps.
Proof.
  intros Hwf Hinit.
  apply RRInit_cases in Hinit as (first & _ & _ & Ha & Hs & _).
  assert (Hadm := pending_burst_admitted ps ps ∅ (arrival_time first)
                    (wf_burst_nonneg _ Hwf) (fun _ H => H)).
  rewrite pending_burst_empty in Hadm.
  unfold remaining_work. rewrite Ha, Hs, queued_burst_entries.
  replace (ids_of (admitted ps ∅ (arrival_time first)) ∪ ∅)
    with (ids_of (admitted ps ∅ (arrival_time first))) in Hadm by set_solver.
  lia.
Qed.

(** More fuel does not change a returned result. *)
Lemma RRLoop_fuel_mono ps ts fuel fuel' s rs :
  RRLoop ps ts fuel s = Returned rs -> (fuel <= fuel')%nat ->
  RRLoop ps ts fuel' s = Returned rs.
Proof.
  revert fuel' s. induction fuel as [|fuel IH]; intros fuel' s; simpl.
  - destruct (RRIteration ps ts s) eqn:Hstep; [discriminate|].
    intros H _. destruct fuel'; simpl; rewrite Hstep; exact H.
  - destruct (RRIteration ps ts s) eqn:Hstep.
    + intros H Hle. destruct fuel' as [|fuel']; [lia|]. simpl. rewrite Hstep.
      apply IH; [exact H | lia].
    + intros H _. destruct fuel'; simpl; rewrite Hstep; exact H.
Qed.

(** ** Concrete inputs *)

Ltac solve_not_in :=
  simpl; intros H;
  repeat match goal with
         | H : _ \/ _ |- _ => destruct H as [H|H]
         end; (discriminate || lia || contradiction).

Ltac solve_preconditions :=
  split;
  [ discriminate
  | unfold kTimeSlice; lia
  | repeat constructor; simpl; lia
  | simpl; repeat (constructor; [solve_not_in|]); constructor ].

Ltac solve_wf_input :=
  split;
  [ repeat constructor; simpl; unfold UInt32.in_range, UInt32.modulus; simpl; lia
  | unfold UInt32.in_range, UInt32.modulus, kTimeSlice; simpl; lia ].

Lemma test_processes_pre : Preconditions test_processes kTimeSlice.
Proof. solve_preconditions. Qed.

Lemma test_processes_wf : wf_input test_processes kTimeSlice.
Proof. solve_wf_input. Qed.

Lemma idle_gap_pre : Preconditions idle_gap_processes 3.
Proof. solve_preconditions. Qed.

Lemma idle_gap_wf : wf_input idle_gap_processes 3.
Proof. solve_wf_input. Qed.

Lemma tie_processes_pre : Preconditions tie_processes 3.
Proof. solve_preconditions. Qed.

(** ** The reference scenario *)

(** C1: on the five processes of the self-test with a time slice of 3 the
    call returns the completion times 80, 14, 100, 82 and 166 for the ids
    0 to 4, with the turnaround and waiting times derived from them, and the
    assertion of the self-test holds. *)
Theorem reference_scenario :
  RRExecute test_processes kTimeSlice 100 = Returned reference_results /\
  Test_assertion reference_results = true /\
  map (fun r => (id (process r), completion_time r))
      (sort (fun a b => id (process a) <? id (process b)) reference_results) =
    [ (0, 80); (1, 14); (2, 100); (3, 82); (4, 166) ] /\
  Forall (fun r => r = ProcessResult_ctor (process r) (completion_time r))
         reference_results.
Proof.
  split; [vm_compute; reflexivity|].
  split; [vm_compute; reflexivity|].
  split; [vm_compute; reflexivity|].
  repeat constructor.
Qed.

(** ** Conservation fails across an idle period *)

(** C3 (the code at the failing input): with processes (0, arrival 0,
    burst 1) and (1, arrival 10, burst 1) and a time slice of 3, the queue
    is empty at tick 1, the loop ends, and process 1 never gets a result,
    however many iterations are allowed. *)
Theorem idle_gap_loses_a_process :
  Preconditions idle_gap_processes 3 /\ wf_input idle_gap_processes 3 /\
  length idle_gap_processes = 2%nat /\
  forall fuel,
    RRExecute idle_gap_processes 3 (S fuel) =
      Returned [ ProcessResult_ctor (mkProcess 0 0 1) 1 ].
Proof.
  split; [exact idle_gap_pre|]. split; [exact idle_gap_wf|].
  split; [reflexivity|]. intros fuel.
  assert (H : RRExecute idle_gap_processes 3 1 =
              Returned [ ProcessResult_ctor (mkProcess 0 0 1) 1 ])
    by (vm_compute; reflexivity).
  unfold RRExecute in *. destruct (RRInit idle_gap_processes); [|discriminate].
  eapply RRLoop_fuel_mono; [exact H | lia].
Qed.

(** ** Termination *)

(** C4 (as stated, refuted): in the reference scenario the first iteration
    runs process 2 for one quantum, admits process 3 and pushes process 2
    back, so the burst time held in the queue grows from 39 to 65. *)
Lemma queued_burst_can_grow :
  Preconditions test_processes kTimeSlice /\
  exists s s',
    RRInit test_processes = Some s /\
    RRIteration test_processes kTimeSlice s = Some s' /\
    queued_burst (schedule s) = 39 /\
    queued_burst (schedule s') = 65 /\
    ~ queued_burst (schedule s') < queued_burst (schedule s).
Proof.
  split; [exact test_processes_pre|].
  destruct (RRInit test_processes) as [s|] eqn:Hs; [|vm_compute in Hs; discriminate].
  destruct (RRIteration test_processes kTimeSlice s) as [s'|] eqn:Hs'.
  - exists s, s'. vm_compute in Hs. inversion Hs; subst s; clear Hs.
    vm_compute in Hs'. inversion Hs'; subst s'; clear Hs'.
    repeat split; try reflexivity. vm_compute. intros H; discriminate H.
  - vm_compute in Hs. inversion Hs; subst s. vm_compute in Hs'. discriminate.
Qed.

(** C4 (amended): under the preconditions the call returns within
    [total_burst] iterations; what strictly decreases on every iteration is
    the burst time still owed to the queued processes together with that of
    the processes not admitted yet; and the loop is left exactly when the
    queue is empty. *)
Theorem RRExecute_terminates ps ts :
  Preconditions ps ts -> wf_input ps ts ->
  (exists rs, RRExecute ps ts (Z.to_nat (total_burst ps)) = Returned rs) /\
  (forall s s', reachable ps ts s -> RRIteration ps ts s = Some s' ->
     0 <= remaining_work ps s' < remaining_work ps s) /\
  (forall s, reachable ps ts s ->
     (RRIteration ps ts s = None <-> schedule s = []) /\
     (schedule s = [] -> forall fuel, RRLoop ps ts fuel s = Returned (results s))).
Proof.
  intros [Hne Hts Hb Hu] Hwf. split; [|split].
  - destruct (RRInit_defined ps Hne) as [s Hs].
    unfold RRExecute. rewrite Hs.
    apply RRLoop_terminates; auto.
    + eapply RRInit_queue_inv; eauto.
    + assert (H1 := RRInit_remaining_work ps s (proj1 Hwf) Hs).
      assert (H2 := remaining_work_nonneg ps s (proj1 Hwf) (RRInit_queue_inv _ _ Hb Hs)).
      lia.
  - intros s s' Hr Hstep.
    assert (Hq := reachable_queue_inv _ _ _ Hwf Hts Hb Hr).
    split.
    + apply remaining_work_nonneg; [exact (proj1 Hwf)|].
      eapply RRIteration_queue_inv; eauto.
    + eapply RRIteration_remaining_work; eauto.
  - intros s _. split.
    + symmetry. apply RRIteration_empty.
    + intros Hs fuel. apply (RRIteration_empty ps ts) in Hs.
      destruct fuel; simpl; rewrite Hs; reflexivity.
Qed.

Lemma RRExecute_terminates_witness :
  (exists rs, RRExecute test_processes kTimeSlice
                (Z.to_nat (total_burst test_processes)) = Returned rs) /\
  (forall s s', reachable test_processes kTimeSlice s ->
     RRIteration test_processes kTimeSlice s = Some s' ->
     0 <= remaining_work test_processes s' < remaining_work test_processes s) /\
  (forall s, reachable test_processes kTimeSlice s ->
     (RRIteration test_processes kTimeSlice s = None <-> schedule s = []) /\
     (schedule s = [] ->
      forall fuel, RRLoop test_processes kTimeSlice fuel s = Returned (results s))).
Proof.
  apply (RRExecute_terminates test_processes kTimeSlice).
  - exact test_processes_pre.
  - exact test_processes_wf.
Defined.

(** ** No validation of the arguments *)

Lemma stuck_init ps s :
  ps <> [] -> Forall wf_process ps ->
  Forall (fun p => 1 <= burst_time p) ps ->
  RRInit ps = Some s -> stuck ps s.
Proof.
  intros Hne Hwf Hb Hinit.
  destruct (min_element_spec ps Hne) as (first & Hmin & Hin & _).
  apply RRInit_cases in Hinit as (first' & Hmin' & Ht & Ha & Hs & _).
  rewrite Hmin in Hmin'. inversion Hmin'; subst first'; clear Hmin'.
  rewrite List.Forall_forall in Hwf, Hb.
  assert (Hcov : forall p, In p ps -> arrival_time p <= time_elapsed s ->
                           id p ∈ arrived_processes s).
  { intros p Hp Hle. rewrite Ha. rewrite Ht in Hle.
    assert (H := admitted_covers ps ∅ _ p Hp Hle). set_solver. }
  repeat split.
  - rewrite Hs. intros Hnil.
    assert (H : id first ∈ arrived_processes s) by (apply Hcov; [exact Hin | lia]).
    rewrite Ha in H. apply map_eq_nil in Hnil. rewrite Hnil in H.
    unfold ids_of in H. simpl in H. set_solver.
  - rewrite Hs. rewrite List.Forall_forall. intros e He.
    apply in_map_iff in He as (p & <- & Hp). apply admitted_In in Hp as (Hp & _).
    simpl. destruct (Hwf p Hp) as (_ & _ & Hr). specialize (Hb p Hp).
    unfold UInt32.in_range in Hr. lia.
  - rewrite Ht. destruct (Hwf first Hin) as (_ & Hr & _). apply Hr.
  - rewrite Ht. destruct (Hwf first Hin) as (_ & Hr & _). apply Hr.
  - exact Hcov.
Qed.

Lemma stuck_step ps s :
  stuck ps s -> exists s', RRIteration ps 0 s = Some s' /\ stuck ps s'.
Proof.
  intros (Hne & Hq & Ht & Hcov). unfold RRIteration.
  destruct (schedule s) as [|[p bt] rest] eqn:Hs; [congruence|].
  apply Forall_cons_iff in Hq as [Hbt Hrest]. simpl in Hbt.
  rewrite CheckArriveProcess_admitted.
  destruct (Z.ltb_spec 0 bt) as [_|Hbad]; [|lia].
  rewrite (sub_small bt 0) by lia. rewrite Z.sub_0_r.
  destruct (Z.ltb_spec 0 bt) as [_|Hbad]; [|lia].
  unfold UInt32.add. rewrite Z.add_0_r, (wrap_small _ Ht).
  rewrite (admitted_nil ps _ _ Hcov). simpl. rewrite app_nil_r.
  eexists; split; [reflexivity|]. unfold stuck; simpl. repeat split.
  - intros H. apply app_eq_nil in H as [_ H]. discriminate.
  - apply Forall_app; split; [exact Hrest|]. constructor; [simpl; lia | constructor].
  - apply Ht.
  - apply Ht.
  - intros q Hq Hle. specialize (Hcov q Hq Hle). unfold ids_of. simpl. set_solver.
Qed.

Lemma RRLoop_zero_time_slice ps fuel s :
  stuck ps s -> RRLoop ps 0 fuel s = OutOfFuel.
Proof.
  revert s. induction fuel as [|fuel IH]; intros s Hs;
    destruct (stuck_step ps s Hs) as (s' & Hstep & Hs'); simpl; rewrite Hstep.
  - reflexivity.
  - apply IH. exact Hs'.
Qed.

Lemma RRExecute_zero_time_slice ps fuel :
  ps <> [] -> Forall wf_process ps ->
  Forall (fun p => 1 <= burst_time p) ps ->
  RRExecute ps 0 fuel = OutOfFuel.
Proof.
  intros Hne Hwf Hb. destruct (RRInit_defined ps Hne) as [s Hs].
  unfold RRExecute. rewrite Hs. apply RRLoop_zero_time_slice.
  eapply stuck_init; eauto.
Qed.

(** C6 (as stated, refuted): with a time slice of zero the call on the
    single process (0, arrival 0, burst 1) is not rejected; it never
    returns, whatever number of iterations it is given. *)
Lemma zero_time_slice_hangs :
  wf_input lone_process 0 /\ never_returns lone_process 0.
Proof.
  split; [solve_wf_input|].
  intros fuel. apply RRExecute_zero_time_slice.
  - discriminate.
  - repeat constructor; simpl; unfold UInt32.modulus; simpl; lia.
  - repeat constructor; simpl; lia.
Qed.

(** C6 (amended): the call validates nothing.  On an empty list it
    dereferences the end iterator that [std::min_element] returns, which is
    undefined behaviour; with a time slice of zero, on a non-empty list of
    processes with positive burst times, the loop never ends. *)
Theorem RRExecute_no_validation :
  (forall ts fuel, RRExecute [] ts fuel = Undefined) /\
  (forall ps fuel,
     ps <> [] -> Forall wf_process ps ->
     Forall (fun p => 1 <= burst_time p) ps ->
     RRExecute ps 0 fuel = OutOfFuel).
Proof.
  split.
  - intros ts fuel. reflexivity.
  - intros ps fuel. apply RRExecute_zero_time_slice.
Qed.

Lemma RRExecute_no_validation_witness :
  RRExecute [] 3 10 = Undefined /\
  RRExecute test_processes 0 1000 = OutOfFuel.
Proof.
  destruct RRExecute_no_validation as [Hempty Hzero]. split.
  - apply (Hempty 3 10%nat).
  - apply (Hzero test_processes 1000%nat).
    + discriminate.
    + exact (proj1 test_processes_wf).
    + exact (pre_burst _ _ test_processes_pre).
Defined.

(** ** The initial state *)





(** ** Arrivals at the end of a quantum *)

(** C2: when an iteration ends at a clock value that is the arrival time of
    a process not admitted before, that process is pushed behind what was
    already queued and, if the process that just ran still owes burst time,
    in front of the entry pushed back for it. *)
Theorem same_tick_arrivals_go_first ps ts s s' cur bt rest p :
  Preconditions ps ts ->
  schedule s = (cur, bt) :: rest ->
  RRIteration ps ts s = Some s' ->
  In p ps -> arrival_time p = time_elapsed s' ->
  id p ∉ arrived_processes s ->
  let left := UInt32.sub bt (if ts <? bt then ts else bt) in
  id p ∈ arrived_processes s' /\
  exists before after,
    schedule s' =
      rest ++ before ++ (p, burst_time p) :: after ++
        (if 0 <? left then [(cur, left)] else []) /\
    results s' =
      results s ++
        (if 0 <? left then [] else [ProcessResult_ctor cur (time_elapsed s')]).
Proof.
  intros Hpre Hs Hstep Hp Hat Hnew left.
  unfold RRIteration in Hstep. rewrite Hs in Hstep.
  rewrite CheckArriveProcess_admitted in Hstep. fold left in Hstep.
  set (t' := UInt32.add (time_elapsed s) (if ts <? bt then ts else bt)) in *.
  assert (Ht : time_elapsed s' = t') by (destruct (0 <? left); inversion Hstep; reflexivity).
  assert (Hadm : In p (admitted ps (arrived_processes s) t')).
  { apply admitted_unique; [exact (pre_unique _ _ Hpre) | exact Hp | lia | exact Hnew]. }
  split.
  - assert (Ha : arrived_processes s' =
                 ids_of (admitted ps (arrived_processes s) t') ∪ arrived_processes s)
      by (destruct (0 <? left); inversion Hstep; reflexivity).
    rewrite Ha. apply elem_of_union_l. unfold ids_of.
    apply elem_of_list_to_set, list_elem_of_In, in_map, Hadm.
  - apply in_split in Hadm as (l1 & l2 & Hsplit).
    exists (map entry_of l1), (map entry_of l2). rewrite Ht.
    destruct (0 <? left); inversion Hstep; subst s'; simpl;
      rewrite Hsplit, map_app; simpl; rewrite <- ?app_assoc; simpl;
      rewrite ?app_nil_r; split; reflexivity.
Qed.

Lemma same_tick_arrivals_go_first_witness :
  RRInit tie_processes = Some tie_state0 /\
  RRIteration tie_processes 3 tie_state0 = Some tie_state1 /\
  2 ∈ arrived_processes tie_state1 /\
  exists before after,
    schedule tie_state1 =
      [] ++ before ++ (mkProcess 2 3 1, 1) :: after ++ [(mkProcess 0 0 5, 2)] /\
    results tie_state1 = [] ++ [].
Proof.
  split; [vm_compute; reflexivity|].
  split; [vm_compute; reflexivity|].
  apply (same_tick_arrivals_go_first tie_processes 3 tie_state0 tie_state1
           (mkProcess 0 0 5) 5 [] (mkProcess 2 3 1)).
  - exact tie_processes_pre.
  - reflexivity.
  - vm_compute; reflexivity.
  - simpl; tauto.
  - reflexivity.
  - simpl. set_solver.
Defined.

(** ** The loop when the clock cannot wrap *)

Lemma foreign_time_app p tr q :
  foreign_time p (tr ++ [q]) = foreign_time p tr + foreign_quantum p q.
Proof. unfold foreign_time. rewrite Zsum_app. simpl. lia. Qed.

Lemma foreign_quantum_bounds p q :
  1 <= q_length q -> 0 <= foreign_quantum p q <= q_length q.
Proof. unfold foreign_quantum. destruct (_ && _); lia. Qed.

Lemma foreign_time_nonneg p tr :
  Forall (fun q => 1 <= q_length q) tr -> 0 <= foreign_time p tr.
Proof.
  intros H. apply Zsum_nonneg. eapply List.Forall_impl; [|exact H].
  intros q Hq. apply foreign_quantum_bounds. exact Hq.
Qed.

Lemma foreign_time_early p tr :
  Forall (fun q => q_start q < arrival_time p) tr -> foreign_time p tr = 0.
Proof.
  unfold foreign_time. induction 1 as [|q tr Hq _ IH]; simpl; [reflexivity|].
  rewrite IH. unfold foreign_quantum.
  destruct (Z.leb_spec (arrival_time p) (q_start q)); [lia|].
  rewrite andb_false_r. reflexivity.
Qed.

Lemma foreign_time_none p tr :
  Forall (fun q => 1 <= q_length q) tr -> foreign_time p tr <= 0 ->
  forall q, In q tr -> arrival_time p <= q_start q -> q_id q = id p.
Proof.
  unfold foreign_time. induction 1 as [|q0 tr Hq0 Hall IH]; simpl; [tauto|].
  intros Hsum q Hin Hle.
  assert (H0 := foreign_quantum_bounds p q0 Hq0).
  assert (H1 := foreign_time_nonneg p tr Hall). unfold foreign_time in H1.
  destruct Hin as [->|Hin]; [|apply IH; auto; lia].
  unfold foreign_quantum in *.
  destruct (Z.eqb_spec (q_id q) (id p)) as [Heq|Hne]; [exact Heq|].
  destruct (Z.leb_spec (arrival_time p) (q_start q)); simpl in *; lia.
Qed.

Lemma StronglySorted_snoc l x :
  StronglySorted Z.le l -> Forall (fun y => y <= x) l ->
  StronglySorted Z.le (l ++ [x]).
Proof.
  induction 1 as [|y l Hl IH Hy]; intros Hx; simpl.
  - repeat constructor.
  - apply Forall_cons_iff in Hx as [Hyx Hx]. constructor; [apply IH; exact Hx|].
    apply Forall_app; split; [exact Hy|]. constructor; [exact Hyx | constructor].
Qed.

Lemma RRQuantum_cases ts s p bt rest :
  schedule s = (p, bt) :: rest ->
  RRQuantum ts s =
    Some {| q_id := id p; q_start := time_elapsed s; q_length := Z.min ts bt;
            q_requeued := 0 <? UInt32.sub bt (Z.min ts bt) |}.
Proof.
  intros Hs. unfold RRQuantum. rewrite Hs.
  replace (if ts <? bt then ts else bt) with (Z.min ts bt)
    by (destruct (Z.ltb_spec ts bt); lia).
  reflexivity.
Qed.

Lemma start_time_init ps s :
  RRInit ps = Some s -> time_elapsed s = start_time ps.
Proof.
  intros H. apply RRInit_cases in H as (first & Hmin & Ht & _).
  unfold start_time. rewrite Hmin. exact Ht.
Qed.

Lemma run_inv_init ps s :
  ps <> [] -> Forall wf_process ps -> RRInit ps = Some s -> run_inv ps [] s.
Proof.
  intros Hne Hwf Hinit.
  assert (Hstart := start_time_init _ _ Hinit).
  assert (Hrw := RRInit_remaining_work _ _ Hwf Hinit).
  destruct (min_element_spec ps Hne) as (first & Hmin & Hin & _).
  destruct (RRInit_cases _ _ Hinit) as (first' & Hmin' & Ht & Ha & Hs & Hres).
  rewrite Hmin in Hmin'. inversion Hmin'; subst first'; clear Hmin'.
  split.
  - split; [|lia]. rewrite Ht. rewrite List.Forall_forall in Hwf.
    destruct (Hwf first Hin) as (_ & Hr & _). apply Hr.
  - constructor.
  - intros p Hp Hnew. destruct (Z.lt_ge_cases (time_elapsed s) (arrival_time p)) as [H|H]; [exact H|].
    exfalso. apply Hnew. rewrite Ha. rewrite Ht in H.
    assert (Hc := admitted_covers ps ∅ _ p Hp H). set_solver.
  - rewrite Hs. rewrite List.Forall_forall. intros e He.
    apply in_map_iff in He as (p & <- & Hp). apply admitted_In in Hp as (_ & Hle & _).
    simpl. unfold foreign_time. simpl. lia.
  - rewrite Hres. constructor.
  - rewrite Hres. constructor.
Qed.

Lemma RRIteration_remaining_work_by ps ts s s' p bt rest :
  wf_input ps ts -> 1 <= ts -> queue_inv ps s ->
  RRIteration ps ts s = Some s' -> schedule s = (p, bt) :: rest ->
  remaining_work ps s' + Z.min ts bt <= remaining_work ps s.
Proof.
  intros Hwf Hts Hq Hstep Hfront.
  destruct (RRIteration_cases _ _ _ _ Hwf Hts Hq Hstep)
    as (p' & bt' & rest' & e & Hs & He & Hrange & Ht & Ha & Hcase).
  rewrite Hfront in Hs. inversion Hs; subst p' bt' rest'; clear Hs.
  destruct Hwf as [Hwf _].
  assert (Hadm := pending_burst_admitted ps ps (arrived_processes s)
                    (time_elapsed s') (wf_burst_nonneg _ Hwf) (fun _ H => H)).
  unfold remaining_work. rewrite Ha, Hfront.
  destruct Hcase as [(Hlt & Hs' & _)|(Heq & Hs' & _)]; rewrite Hs';
    rewrite ?queued_burst_app, queued_burst_entries, ?queued_burst_cons;
    change (queued_burst []) with 0; lia.
Qed.

Lemma result_ok_later ps tr now now' q r :
  now <= now' -> now <= q_start q ->
  result_ok ps tr now r -> result_ok ps (tr ++ [q]) now' r.
Proof.
  intros Hnow Hq (H1 & H2 & H3 & H4 & H5 & H6).
  repeat split; try assumption; try lia.
  intros Heq q0 Hin Hrange. apply in_app_or in Hin as [Hin|[<-|[]]].
  - apply H6; assumption.
  - lia.
Qed.

Lemma run_inv_step ps ts tr s s' q :
  wf_input ps ts -> 1 <= ts -> clock_fits ps ->
  queue_inv ps s -> run_inv ps tr s ->
  RRIteration ps ts s = Some s' -> RRQuantum ts s = Some q ->
  run_inv ps (tr ++ [q]) s'.
Proof.
  intros Hwf Hts Hfit Hq [[Ht0 Hclock] Hquanta Hpend Hqueue Hres Hsorted] Hstep Hquant.
  destruct (RRIteration_cases _ _ _ _ Hwf Hts Hq Hstep)
    as (p & bt & rest & e & Hs & He & Hrange & Ht & Ha & Hcase).
  rewrite (RRQuantum_cases ts s p bt rest Hs), <- He in Hquant.
  inversion Hquant; subst q; clear Hquant.
  assert (Hrw := RRIteration_remaining_work_by _ _ _ _ _ _ _ Hwf Hts Hq Hstep Hs).
  unfold queue_inv in Hq. rewrite Hs in Hq, Hqueue.
  apply Forall_cons_iff in Hq as [[Hp Hbt] Hqrest].
  apply Forall_cons_iff in Hqueue as [Hpq Hqueue].
  simpl in Hp, Hbt, Hpq.
  assert (HQ := queued_burst_lower _ _ Hqrest).
  assert (HU := pending_burst_nonneg ps (arrived_processes s)
                  (wf_burst_nonneg _ (proj1 Hwf))).
  assert (Hmax : time_elapsed s + e <= UInt32.max_value).
  { unfold remaining_work in Hclock.
    rewrite Hs, queued_burst_cons in Hclock. unfold clock_fits in Hfit. lia. }
  assert (Hadd : time_elapsed s' = time_elapsed s + e).
  { rewrite Ht. apply add_small. lia. }
  assert (Hlen : Forall (fun q => 1 <= q_length q) tr).
  { eapply List.Forall_impl; [|exact Hquanta]. simpl. intros q0 [H _]. exact H. }
  assert (Hfp := foreign_time_nonneg p tr Hlen).
  set (q := {| q_id := id p; q_start := time_elapsed s; q_length := e;
               q_requeued := 0 <? UInt32.sub bt e |}).
  assert (Hown : foreign_quantum p q = 0).
  { unfold foreign_quantum. simpl. rewrite Z.eqb_refl. reflexivity. }
  assert (Hpend' : forall p0, In p0 ps -> id p0 ∉ arrived_processes s' ->
                              time_elapsed s' < arrival_time p0).
  { intros p0 Hp0 Hnew.
    destruct (Z.lt_ge_cases (time_elapsed s') (arrival_time p0)) as [H|H]; [exact H|].
    exfalso. apply Hnew. rewrite Ha. apply admitted_covers; assumption. }
  assert (Hrest' : Forall (fun e0 : Entry =>
            arrival_time e0.1 + (burst_time e0.1 - e0.2) +
              foreign_time e0.1 (tr ++ [q]) <= time_elapsed s') rest).
  { eapply List.Forall_impl; [|exact Hqueue]. simpl. intros e0 He0.
    rewrite foreign_time_app.
    assert (Hb := foreign_quantum_bounds e0.1 q). simpl in Hb. lia. }
  assert (Hadm' : Forall (fun e0 : Entry =>
            arrival_time e0.1 + (burst_time e0.1 - e0.2) +
              foreign_time e0.1 (tr ++ [q]) <= time_elapsed s')
            (map entry_of (admitted ps (arrived_processes s) (time_elapsed s')))).
  { rewrite List.Forall_forall. intros e0 He0.
    apply in_map_iff in He0 as (p0 & <- & Hp0).
    apply admitted_In in Hp0 as (Hp0 & Hle & Hnew). simpl.
    specialize (Hpend p0 Hp0 Hnew).
    rewrite (foreign_time_early p0 (tr ++ [q])); [lia|].
    apply Forall_app; split.
    - eapply List.Forall_impl; [|exact Hquanta]. simpl. intros q0 [H1 H2]. lia.
    - constructor; [simpl; lia | constructor]. }
  assert (Hquanta' : Forall (fun q0 => 1 <= q_length q0 /\
             q_start q0 + q_length q0 <= time_elapsed s') (tr ++ [q])).
  { apply Forall_app; split.
    - eapply List.Forall_impl; [|exact Hquanta]. simpl. intros q0 [H1 H2]. lia.
    - constructor; [simpl; lia | constructor]. }
  assert (Hres' : Forall (result_ok ps (tr ++ [q]) (time_elapsed s')) (results s)).
  { eapply List.Forall_impl; [|exact Hres]. intros r Hr.
    eapply result_ok_later; [| |exact Hr]; simpl; lia. }
  assert (Hclock' : 0 <= time_elapsed s' /\
            time_elapsed s' + remaining_work ps s' <= start_time ps + total_burst ps).
  { split; [lia|]. rewrite <- He in Hrw. lia. }
  destruct Hcase as [(Hlt & Hs' & Hr')|(Heq & Hs' & Hr')].
  - split; try assumption.
    + rewrite Hs'. apply Forall_app; split; [exact Hrest'|].
      apply Forall_app; split; [exact Hadm'|].
      constructor; [|constructor]. simpl. rewrite foreign_time_app, Hown. lia.
    + rewrite Hr'. exact Hres'.
    + rewrite Hr'. exact Hsorted.
  - assert (Hpr : UInt32.in_range (arrival_time p) /\ UInt32.in_range (burst_time p)).
    { destruct Hwf as [Hwf _]. rewrite List.Forall_forall in Hwf.
      destruct (Hwf p Hp) as (_ & H1 & H2). split; assumption. }
    destruct Hpr as [Hpa Hpb]. unfold UInt32.in_range in Hpa, Hpb.
    unfold UInt32.max_value in Hmax.
    assert (Hnew : result_ok ps (tr ++ [q]) (time_elapsed s')
                     (ProcessResult_ctor p (time_elapsed s'))).
    { unfold result_ok, ProcessResult_ctor. simpl.
      rewrite (sub_small (time_elapsed s') (arrival_time p)) by lia.
      rewrite (sub_small (time_elapsed s' - arrival_time p) (burst_time p)) by lia.
      repeat split; try assumption; try lia.
      intros Hexact q0 Hin Hr0. apply in_app_or in Hin as [Hin|[<-|[]]]; [|reflexivity].
      apply (foreign_time_none p tr Hlen); [lia | exact Hin | lia]. }
    split; try assumption.
    + rewrite Hs'. apply Forall_app; split; assumption.
    + rewrite Hr'. apply Forall_app; split; [exact Hres'|].
      constructor; [exact Hnew | constructor].
    + rewrite Hr', map_app. simpl. apply StronglySorted_snoc; [exact Hsorted|].
      rewrite List.Forall_forall. intros c Hc.
      apply in_map_iff in Hc as (r & <- & Hr).
      rewrite List.Forall_forall in Hres.
      destruct (Hres r Hr) as (_ & _ & _ & _ & H5 & _). lia.
Qed.

Lemma RRLoop_run_inv ps ts fuel :
  wf_input ps ts -> 1 <= ts -> clock_fits ps ->
  Forall (fun p => 1 <= burst_time p) ps ->
  forall tr s rs,
    queue_inv ps s -> run_inv ps tr s ->
    RRLoop ps ts fuel s = Returned rs ->
    exists final,
      run_inv ps (tr ++ RRTrace ps ts fuel s) final /\ results final = rs.
Proof.
  intros Hwf Hts Hfit Hb.
  induction fuel as [|fuel IH]; intros tr s rs Hq Hinv; simpl;
    destruct (RRIteration ps ts s) as [s'|] eqn:Hstep; try discriminate.
  - intros H. inversion H; subst rs. exists s. rewrite app_nil_r. auto.
  - destruct (RRQuantum ts s) as [q|] eqn:Hquant.
    2:{ unfold RRQuantum in Hquant. unfold RRIteration in Hstep.
        destruct (schedule s) as [|[p bt] rest]; discriminate. }
    intros Hloop.
    destruct (IH (tr ++ [q]) s' rs) as (final & Hfinal & Hrs).
    + eapply RRIteration_queue_inv; eauto.
    + eapply run_inv_step; eauto.
    + exact Hloop.
    + exists final. rewrite <- app_assoc in Hfinal. auto.
  - intros H. inversion H; subst rs. exists s. rewrite app_nil_r. auto.
Qed.

(** What a returned call guarantees when the clock cannot wrap. *)
Lemma RRExecute_run_inv ps ts fuel rs :
  Preconditions ps ts -> wf_input ps ts -> clock_fits ps ->
  RRExecute ps ts fuel = Returned rs ->
  exists final,
    run_inv ps (RRExecuteTrace ps ts fuel) final /\ results final = rs.
Proof.
  intros [Hne Hts Hb Hu] Hwf Hfit. unfold RRExecute, RRExecuteTrace.
  destruct (RRInit ps) as [s|] eqn:Hinit; [|discriminate].
  intros Hloop.
  apply (RRLoop_run_inv ps ts fuel Hwf Hts Hfit Hb [] s rs); auto.
  - eapply RRInit_queue_inv; eauto.
  - apply run_inv_init; auto. exact (proj1 Hwf).
Qed.

Lemma late_process_pre : Preconditions late_process 3.
Proof. solve_preconditions. Qed.

Lemma late_processes_pre : Preconditions late_processes 3.
Proof. solve_preconditions. Qed.

Lemma single_process_pre : Preconditions single_process 3.
Proof. solve_preconditions. Qed.

Lemma test_processes_fit : clock_fits test_processes.
Proof. vm_compute. discriminate. Qed.

(** ** Bounds on the completion time *)

(** C5 (as stated, refuted): a process arriving at tick 4294967295 with a
    burst time of 2 satisfies the preconditions, yet the 32-bit clock wraps
    and its completion time is 1. *)
Lemma completion_time_wraps :
  Preconditions late_process 3 /\ wf_input late_process 3 /\
  exists r,
    RRExecute late_process 3 5 = Returned [r] /\
    completion_time r = 1 /\
    ~ completion_time r >=
        arrival_time (process r) + burst_time (process r).
Proof.
  split; [exact late_process_pre|]. split; [solve_wf_input|].
  eexists. split; [vm_compute; reflexivity|]. split; [reflexivity|].
  vm_compute. intros H. apply H. reflexivity.
Qed.

(** C5 (amended): under the preconditions, and when the first arrival
    time plus the sum of all burst times fits in 32 bits, every result has
    [completion_time >= arrival_time + burst_time]; its turnaround and
    waiting times are the exact differences, so [waiting_time >= 0] and
    [turn_around_time >= burst_time]. *)
Theorem completion_time_lower_bound ps ts fuel rs :
  Preconditions ps ts -> wf_input ps ts -> clock_fits ps ->
  RRExecute ps ts fuel = Returned rs ->
  forall r, In r rs ->
    completion_time r >= arrival_time (process r) + burst_time (process r) /\
    waiting_time r >= 0 /\
    turn_around_time r >= burst_time (process r) /\
    turn_around_time r = completion_time r - arrival_time (process r) /\
    waiting_time r = turn_around_time r - burst_time (process r).
Proof.
  intros Hpre Hwf Hfit Hret r Hr.
  destruct (RRExecute_run_inv _ _ _ _ Hpre Hwf Hfit Hret) as (final & Hinv & <-).
  destruct Hinv as [_ _ _ _ Hres _]. rewrite List.Forall_forall in Hres.
  destruct (Hres r Hr) as (_ & H2 & H3 & H4 & _). lia.
Qed.

Lemma completion_time_lower_bound_witness :
  Forall (fun r =>
    completion_time r >= arrival_time (process r) + burst_time (process r) /\
    waiting_time r >= 0 /\
    turn_around_time r >= burst_time (process r) /\
    turn_around_time r = completion_time r - arrival_time (process r) /\
    waiting_time r = turn_around_time r - burst_time (process r))
    reference_results.
Proof.
  apply List.Forall_forall.
  apply (completion_time_lower_bound test_processes kTimeSlice 100).
  - exact test_processes_pre.
  - exact test_processes_wf.
  - exact test_processes_fit.
  - vm_compute; reflexivity.
Defined.

(** ** Order of the returned vector *)

(** C10 (as stated, refuted): two processes arriving at tick 4294967294
    with burst times 1 and 2 finish at ticks 4294967295 and, after the
    clock has wrapped, 1; the returned vector is not in nondecreasing order
    of completion time. *)
Lemma completion_order_wraps :
  Preconditions late_processes 3 /\ wf_input late_processes 3 /\
  exists rs,
    RRExecute late_processes 3 5 = Returned rs /\
    map completion_time rs = [4294967295; 1] /\
    ~ StronglySorted Z.le (map completion_time rs).
Proof.
  split; [exact late_processes_pre|]. split; [solve_wf_input|].
  eexists. split; [vm_compute; reflexivity|]. split; [reflexivity|].
  simpl. intros H. inversion H as [|a l _ Hall]; subst.
  inversion Hall as [|b l' Hle _]; subst. lia.
Qed.

(** C10 (amended): under the preconditions, and when the first arrival
    time plus the sum of all burst times fits in 32 bits, the returned
    vector is in nondecreasing order of completion time. *)
Theorem results_in_completion_order ps ts fuel rs :
  Preconditions ps ts -> wf_input ps ts -> clock_fits ps ->
  RRExecute ps ts fuel = Returned rs ->
  StronglySorted Z.le (map completion_time rs).
Proof.
  intros Hpre Hwf Hfit Hret.
  destruct (RRExecute_run_inv _ _ _ _ Hpre Hwf Hfit Hret) as (final & Hinv & <-).
  apply (inv_sorted _ _ _ Hinv).
Qed.

Lemma results_in_completion_order_witness :
  StronglySorted Z.le (map completion_time reference_results).
Proof.
  apply (results_in_completion_order test_processes kTimeSlice 100
           reference_results).
  - exact test_processes_pre.
  - exact test_processes_wf.
  - exact test_processes_fit.
  - vm_compute; reflexivity.
Defined.

(** ** Zero waiting time *)

(** C8 (as stated, refuted): a single process (0, arrival 0, burst 5) with
    a time slice of 3 runs for 3 ticks, is pushed back into the queue, runs
    for 2 more ticks, and its waiting time is zero. *)
Lemma requeued_with_zero_waiting_time :
  Preconditions single_process 3 /\ wf_input single_process 3 /\
  exists r,
    RRExecute single_process 3 5 = Returned [r] /\
    waiting_time r = 0 /\
    completion_time r = arrival_time (process r) + burst_time (process r) /\
    In {| q_id := id (process r); q_start := 0; q_length := 3;
          q_requeued := true |} (RRExecuteTrace single_process 3 5).
Proof.
  split; [exact single_process_pre|]. split; [solve_wf_input|].
  eexists. split; [vm_compute; reflexivity|]. repeat split.
  vm_compute. left; reflexivity.
Qed.

(** C8 (amended): under the preconditions, and when the clock cannot
    wrap, a result has waiting time zero exactly when its completion time
    is arrival time plus burst time, and then every quantum that started
    between the arrival and the completion of the process was a quantum of
    that process: no other process ran in between.  The process may still
    have been pushed back into the queue between its own quanta. *)
Theorem zero_waiting_time_runs_alone ps ts fuel rs :
  Preconditions ps ts -> wf_input ps ts -> clock_fits ps ->
  RRExecute ps ts fuel = Returned rs ->
  forall r, In r rs ->
    (waiting_time r = 0 <->
     completion_time r = arrival_time (process r) + burst_time (process r)) /\
    (waiting_time r = 0 ->
     forall q, In q (RRExecuteTrace ps ts fuel) ->
       arrival_time (process r) <= q_start q < completion_time r ->
       q_id q = id (process r)).
Proof.
  intros Hpre Hwf Hfit Hret r Hr.
  destruct (RRExecute_run_inv _ _ _ _ Hpre Hwf Hfit Hret) as (final & Hinv & <-).
  destruct Hinv as [_ _ _ _ Hres _]. rewrite List.Forall_forall in Hres.
  destruct (Hres r Hr) as (_ & H2 & H3 & H4 & _ & H6).
  split; [lia|]. intros Hzero. apply H6. lia.
Qed.

Lemma zero_waiting_time_runs_alone_witness :
  Forall (fun r =>
    (waiting_time r = 0 <->
     completion_time r = arrival_time (process r) + burst_time (process r)) /\
    (waiting_time r = 0 ->
     forall q, In q (RRExecuteTrace single_process 3 5) ->
       arrival_time (process r) <= q_start q < completion_time r ->
       q_id q = id (process r)))
    [ mkProcessResult (mkProcess 0 0 5) 5 5 0 ].
Proof.
  apply List.Forall_forall.
  apply (zero_waiting_time_runs_alone single_process 3 5).
  - exact single_process_pre.
  - solve_wf_input.
  - vm_compute. discriminate.
  - vm_compute; reflexivity.
Defined.

(** ** [std::sort] *)

Section SortFacts.

Context {A : Type}.
Variable comp : A -> A -> bool.

Lemma sort_insert_perm x l : Permutation (x :: l) (sort_insert comp x l).
Proof.
  induction l as [|y l IH]; simpl; [reflexivity|].
  destruct (comp y x); [|reflexivity].
  rewrite perm_swap. apply perm_skip. exact IH.
Qed.

Lemma sort_perm l : Permutation l (sort comp l).
Proof.
  induction l as [|x l IH]; simpl; [reflexivity|].
  rewrite <- sort_insert_perm. apply perm_skip. exact IH.
Qed.

Lemma sort_length l : length (sort comp l) = length l.
Proof. symmetry. apply Permutation_length, sort_perm. Qed.

End SortFacts.

Lemma sort_insert_sorted x l :
  StronglySorted arrives_no_later l ->
  StronglySorted arrives_no_later (sort_insert CompareAT_result x l).
Proof.
  induction 1 as [|y l Hl IH Hy]; simpl.
  - repeat constructor.
  - unfold CompareAT_result at 1, CompareAT.
    destruct (Z.ltb_spec (arrival_time (process y)) (arrival_time (process x))) as [Hlt|Hge].
    + constructor; [exact IH|].
      eapply Permutation_Forall; [apply sort_insert_perm|].
      constructor; [unfold arrives_no_later; lia | exact Hy].
    + constructor; [constructor; assumption|].
      constructor; [exact Hge|].
      eapply List.Forall_impl; [|exact Hy]. unfold arrives_no_later. intros z Hz. lia.
Qed.

Lemma sort_sorted l :
  StronglySorted arrives_no_later (sort CompareAT_result l).
Proof.
  induction l as [|x l IH]; simpl; [constructor|].
  apply sort_insert_sorted. exact IH.
Qed.

(** ** Strings *)

Lemma append_String ch (a b : string) :
  String ch a +:+ b = String ch (a +:+ b).
Proof. reflexivity. Qed.

Lemma append_nil_l (a : string) : EmptyString +:+ a = a.
Proof. reflexivity. Qed.

Lemma append_assoc (a b c : string) : (a +:+ b) +:+ c = a +:+ (b +:+ c).
Proof.
  induction a as [|ch a IH]; [reflexivity|].
  rewrite !append_String, IH. reflexivity.
Qed.

Lemma append_nil_r (a : string) : a +:+ EmptyString = a.
Proof.
  induction a as [|ch a IH]; [reflexivity|].
  rewrite append_String, IH. reflexivity.
Qed.

Lemma length_append (a b : string) :
  String.length (a +:+ b) = (String.length a + String.length b)%nat.
Proof.
  induction a as [|ch a IH]; [reflexivity|].
  rewrite append_String. simpl. rewrite IH. reflexivity.
Qed.

Lemma length_spaces n : String.length (spaces n) = n.
Proof. induction n as [|n IH]; simpl; [reflexivity | f_equal; exact IH]. Qed.

Lemma cell_ok_short text :
  (String.length text <= kCellWidth)%nat -> cell_ok text.
Proof.
  intros H. split; [reflexivity|].
  unfold left_aligned. rewrite length_append, length_spaces. lia.
Qed.

(** ** [std::to_string] *)

Lemma to_string_aux_length fuel n acc :
  (String.length (to_string_aux fuel n acc) <= S fuel + String.length acc)%nat.
Proof.
  revert n acc. induction fuel as [|fuel IH]; intros n acc; simpl; [lia|].
  destruct (n / 10 =? 0); simpl; [lia|].
  specialize (IH (n / 10) (String (digit_char (n mod 10)) acc)). simpl in IH. lia.
Qed.

Lemma to_string_length n : (String.length (to_string n) <= 10)%nat.
Proof. unfold to_string. apply (to_string_aux_length 9 n EmptyString). Qed.

Lemma digit_char_value d :
  0 <= d < 10 -> Z.of_nat (nat_of_ascii (digit_char d)) - 48 = d.
Proof.
  intros H. unfold digit_char. rewrite nat_ascii_embedding by lia. lia.
Qed.

Lemma decimal_from_String a c s :
  decimal_from a (String c s) =
  decimal_from (10 * a + (Z.of_nat (nat_of_ascii c) - 48)) s.
Proof. reflexivity. Qed.

Lemma to_string_aux_value fuel n acc :
  0 <= n < 10 ^ Z.of_nat (S fuel) ->
  decimal_from 0 (to_string_aux fuel n acc) = decimal_from n acc.
Proof.
  revert n acc. induction fuel as [|fuel IH]; intros n acc Hn.
  - change (10 ^ Z.of_nat 1) with 10 in Hn. simpl.
    rewrite decimal_from_String, digit_char_value by (apply Z.mod_pos_bound; lia).
    rewrite Z.mod_small by lia. f_equal.
  - simpl to_string_aux.
    assert (Hd : 0 <= n mod 10 < 10) by (apply Z.mod_pos_bound; lia).
    destruct (Z.eqb_spec (n / 10) 0) as [Hz|Hnz].
    + rewrite decimal_from_String, digit_char_value by exact Hd.
      assert (n = n mod 10) by (rewrite (Z.div_mod n 10) at 1 by lia; lia).
      f_equal. lia.
    + rewrite IH.
      * rewrite decimal_from_String, digit_char_value by exact Hd.
        f_equal. rewrite (Z.div_mod n 10) at 3 by lia. lia.
      * split; [apply Z.div_pos; lia|].
        apply Z.div_lt_upper_bound; [lia|].
        rewrite Nat2Z.inj_succ, Z.pow_succ_r in Hn by lia. lia.
Qed.

Lemma to_string_value n :
  UInt32.in_range n -> decimal_from 0 (to_string n) = n.
Proof.
  intros Hn. unfold to_string. rewrite to_string_aux_value; [reflexivity|].
  unfold UInt32.in_range, UInt32.modulus in Hn.
  change (10 ^ Z.of_nat 10) with 10000000000.
  change (2 ^ 32) with 4294967296 in Hn. lia.
Qed.

(** ** The printed table *)

Lemma print_row_line ostream p :
  print_row ostream p = ostream +:+ table_line (row_cells p).
Proof.
  unfold print_row, PrintCell, table_line, row_cells, concat_strings. simpl.
  rewrite !append_assoc, append_nil_l. reflexivity.
Qed.

Lemma print_rows_lines rows ostream :
  fold_left print_row rows ostream =
  ostream +:+ concat_strings (map table_line (map row_cells rows)).
Proof.
  revert ostream. induction rows as [|p rows IH]; intros ostream; simpl.
  - rewrite append_nil_r. reflexivity.
  - rewrite IH, print_row_line, append_assoc. reflexivity.
Qed.

Lemma header_line ostream :
  PrintCell (PrintCell (PrintCell (PrintCell (PrintCell (PrintCell ostream
    "Process ID") "Arrival Time") "Burst Time") "Completion Time")
    "Turnaround Time") "Waiting Time" +:+ newline =
  ostream +:+ table_line header_cells.
Proof.
  unfold PrintCell, table_line, header_cells, concat_strings.
  cbn [map fold_right]. rewrite !append_assoc, append_nil_l. reflexivity.
Qed.

Lemma table_cons rows :
  table rows =
  table_line header_cells +:+ concat_strings (map table_line (map row_cells rows)).
Proof. reflexivity. Qed.

Lemma header_cells_ok : Forall cell_ok header_cells.
Proof. repeat constructor. Qed.

Lemma row_cells_ok p : Forall cell_ok (row_cells p).
Proof.
  unfold row_cells.
  repeat (constructor; [apply cell_ok_short; unfold kCellWidth;
                        pose proof (to_string_length (id (process p)));
                        pose proof (to_string_length (arrival_time (process p)));
                        pose proof (to_string_length (burst_time (process p)));
                        pose proof (to_string_length (completion_time p));
                        pose proof (to_string_length (turn_around_time p));
                        pose proof (to_string_length (waiting_time p)); lia|]).
  constructor.
Qed.

(** C9: for any sequence of results the function is total, leaves its
    argument as it is, and appends to the stream the header line followed by
    one line per result; the lines list the results that were passed, in
    ascending order of arrival time; every line has the six cells Process
    ID, Arrival Time, Burst Time, Completion Time, Turnaround Time and
    Waiting Time, each the text followed by blanks up to 17 characters; and
    when the fields are 32-bit values the cells of a row are their decimal
    representations. *)
Theorem operator_lshift_prints_table ostream rs :
  let sorted := sort CompareAT_result rs in
  operator_lshift ostream rs = ostream +:+ table sorted /\
  Permutation rs sorted /\
  StronglySorted arrives_no_later sorted /\
  length (header_cells :: map row_cells sorted) = S (length rs) /\
  Forall (fun cells => length cells = 6%nat /\ Forall cell_ok cells)
         (header_cells :: map row_cells sorted) /\
  (Forall wf_result rs ->
   Forall (fun p => map (decimal_from 0) (row_cells p) = row_values p) sorted).
Proof.
  intros sorted. split; [|split; [|split; [|split; [|split]]]].
  - unfold operator_lshift. fold sorted.
    rewrite print_rows_lines, header_line, table_cons, append_assoc. reflexivity.
  - apply sort_perm.
  - apply sort_sorted.
  - simpl. rewrite length_map. unfold sorted. rewrite sort_length. reflexivity.
  - constructor; [split; [reflexivity | exact header_cells_ok]|].
    rewrite List.Forall_forall. intros cells Hc.
    apply in_map_iff in Hc as (p & <- & _). split; [reflexivity | apply row_cells_ok].
  - intros Hwf. eapply Permutation_Forall; [apply sort_perm|].
    eapply List.Forall_impl; [|exact Hwf].
    intros p ((H1 & H2 & H3) & H4 & H5 & H6).
    unfold row_cells, row_values. simpl.
    rewrite !to_string_value by assumption. reflexivity.
Qed.

Lemma operator_lshift_prints_table_witness :
  operator_lshift EmptyString sample_results =
    EmptyString +:+ table (sort CompareAT_result sample_results) /\
  Forall (fun p => map (decimal_from 0) (row_cells p) = row_values p)
         (sort CompareAT_result sample_results).
Proof.
  destruct (operator_lshift_prints_table EmptyString sample_results)
    as (Htable & _ & _ & _ & _ & Hdigits).
  split; [exact Htable|]. apply Hdigits.
  repeat constructor; vm_compute; congruence.
Defined.

(** * Further properties of the code *)

(** ** [ProcessResult]: comparison and constructor *)

Lemma ProcessResult_eqb_eq_iff a b :
  ProcessResult_eqb a b = true <-> a = b.
Proof.
  destruct a as [[i1 a1 b1] c1 t1 w1], b as [[i2 a2 b2] c2 t2 w2].
  unfold ProcessResult_eqb. simpl.
  rewrite !andb_true_iff, !Z.eqb_eq. split.
  - intros [[[[[-> ->] ->] ->] ->] ->]. reflexivity.
  - intros H. inversion H. tauto.
Qed.

(** X1: [operator==] holds exactly when the two results are the same
    record, it compares every member and nothing else; so it is
    reflexive and symmetric. *)
Theorem ProcessResult_eqb_eq a b :
  (ProcessResult_eqb a b = true <-> a = b) /\
  ProcessResult_eqb a a = true /\
  ProcessResult_eqb a b = ProcessResult_eqb b a.
Proof.
  split; [apply ProcessResult_eqb_eq_iff|]. split.
  - apply ProcessResult_eqb_eq_iff. reflexivity.
  - destruct (ProcessResult_eqb a b) eqn:Hab, (ProcessResult_eqb b a) eqn:Hba;
      try reflexivity.
    + apply ProcessResult_eqb_eq_iff in Hab. subst b.
      rewrite (proj2 (ProcessResult_eqb_eq_iff a a) eq_refl) in Hba. discriminate.
    + apply ProcessResult_eqb_eq_iff in Hba. subst b.
      rewrite (proj2 (ProcessResult_eqb_eq_iff a a) eq_refl) in Hab. discriminate.
Qed.

Lemma wrap_range z : UInt32.in_range (UInt32.wrap z).
Proof.
  unfold UInt32.in_range, UInt32.wrap. apply Z.mod_pos_bound. reflexivity.
Qed.

(** X2: the constructor keeps the process and the completion time, and
    its two differences are 32-bit values that undo modulo [2^32]: arrival
    plus turnaround is the completion time, burst plus waiting is the
    turnaround time, whether or not a subtraction wrapped. *)
Theorem ProcessResult_ctor_fields p c :
  wf_process p -> UInt32.in_range c ->
  process (ProcessResult_ctor p c) = p /\
  completion_time (ProcessResult_ctor p c) = c /\
  wf_result (ProcessResult_ctor p c) /\
  UInt32.add (arrival_time p) (turn_around_time (ProcessResult_ctor p c)) = c /\
  UInt32.add (burst_time p) (waiting_time (ProcessResult_ctor p c)) =
    turn_around_time (ProcessResult_ctor p c).
Proof.
  intros Hp Hc. unfold ProcessResult_ctor, wf_result. simpl.
  split; [reflexivity|]. split; [reflexivity|].
  split; [repeat split; try apply Hp; try apply Hc; apply wrap_range|].
  unfold UInt32.add, UInt32.sub, UInt32.wrap. split.
  - rewrite Zplus_mod_idemp_r.
    replace (arrival_time p + (c - arrival_time p)) with c by lia.
    apply Z.mod_small. exact Hc.
  - rewrite Zplus_mod_idemp_r.
    replace (burst_time p + ((c - arrival_time p) mod UInt32.modulus - burst_time p))
      with ((c - arrival_time p) mod UInt32.modulus) by lia.
    apply Z.mod_mod. discriminate.
Qed.

Lemma ProcessResult_ctor_fields_witness :
  process (ProcessResult_ctor sample_process 2) = sample_process /\
  completion_time (ProcessResult_ctor sample_process 2) = 2 /\
  wf_result (ProcessResult_ctor sample_process 2) /\
  UInt32.add (arrival_time sample_process)
    (turn_around_time (ProcessResult_ctor sample_process 2)) = 2 /\
  UInt32.add (burst_time sample_process)
    (waiting_time (ProcessResult_ctor sample_process 2)) =
    turn_around_time (ProcessResult_ctor sample_process 2).
Proof.
  apply (ProcessResult_ctor_fields sample_process 2).
  - repeat split; simpl; unfold UInt32.modulus; simpl; lia.
  - unfold UInt32.in_range, UInt32.modulus; simpl; lia.
Defined.

(** ** [CompareAT] *)

(** X3: [CompareAT] is a strict weak ordering, as [std::sort] and
    [std::min_element] require of a comparator: irreflexive, asymmetric,
    transitive, and with a transitive incomparability (equal arrival
    times). *)
Theorem CompareAT_strict_weak_order :
  (forall p, CompareAT p p = false) /\
  (forall p q, CompareAT p q = true -> CompareAT q p = false) /\
  (forall p q r, CompareAT p q = true -> CompareAT q r = true ->
                 CompareAT p r = true) /\
  (forall p q r,
     CompareAT p q = false -> CompareAT q p = false ->
     CompareAT q r = false -> CompareAT r q = false ->
     CompareAT p r = false /\ CompareAT r p = false).
Proof.
  unfold CompareAT. repeat split; intros; rewrite ?Z.ltb_lt, ?Z.ltb_ge in *; lia.
Qed.

Lemma CompareAT_strict_weak_order_witness :
  CompareAT (mkProcess 0 70 3) (mkProcess 1 9 2) = false /\
  CompareAT (mkProcess 2 3 39) (mkProcess 0 70 3) = true.
Proof.
  destruct CompareAT_strict_weak_order as (_ & Hasym & Htrans & _). split.
  - apply (Hasym (mkProcess 1 9 2) (mkProcess 0 70 3)). reflexivity.
  - apply (Htrans (mkProcess 2 3 39) (mkProcess 1 9 2) (mkProcess 0 70 3));
      reflexivity.
Defined.

(** ** [CheckArriveProcess] *)

Lemma admitted_sublist l arrived t : admitted l arrived t `sublist_of` l.
Proof.
  revert arrived. induction l as [|p l IH]; intros arrived; simpl.
  - constructor.
  - destruct ((t <? arrival_time p) || bool_decide (id p ∈ arrived)).
    + apply sublist_cons, IH.
    + apply sublist_skip, IH.
Qed.

Lemma admitted_NoDup l arrived t : List.NoDup (map id (admitted l arrived t)).
Proof.
  revert arrived. induction l as [|p l IH]; intros arrived; simpl.
  - constructor.
  - destruct ((t <? arrival_time p) || bool_decide (id p ∈ arrived)); [apply IH|].
    simpl. constructor; [|apply IH].
    intros Hin. apply in_map_iff in Hin as (q & Hq & Hin).
    apply admitted_In in Hin as (_ & _ & Hnew). rewrite Hq in Hnew. set_solver.
Qed.

(** X4: a call only adds: the set grows by the ids of the processes it
    pushes, the queue is extended at the back, the pushed processes are
    taken from the input in input order, have pairwise distinct ids that
    were not in the set, have arrived, and carry their whole burst time;
    afterwards every input process that has arrived has its id in the
    set. *)
Theorem CheckArriveProcess_appends ps arrived sched t :
  exists new,
    CheckArriveProcess ps arrived sched t =
      (ids_of new ∪ arrived, sched ++ map entry_of new) /\
    new `sublist_of` ps /\
    List.NoDup (map id new) /\
    Forall (fun p => arrival_time p <= t /\ id p ∉ arrived) new /\
    Forall (fun p => arrival_time p <= t -> id p ∈ ids_of new ∪ arrived) ps.
Proof.
  exists (admitted ps arrived t).
  split; [apply CheckArriveProcess_admitted|].
  split; [apply admitted_sublist|].
  split; [apply admitted_NoDup|]. split.
  - rewrite List.Forall_forall. intros p Hp.
    apply admitted_In in Hp. tauto.
  - rewrite List.Forall_forall. intros p Hp Hle.
    apply admitted_covers; assumption.
Qed.

Lemma admitted_filter l arrived t :
  List.NoDup (map id l) ->
  admitted l arrived t = List.filter (newly_arrived arrived t) l.
Proof.
  revert arrived. induction l as [|p l IH]; intros arrived Hnd; simpl; [reflexivity|].
  simpl in Hnd. apply NoDup_cons_iff in Hnd as [Hp Hnd].
  unfold newly_arrived at 1.
  destruct ((t <? arrival_time p) || bool_decide (id p ∈ arrived)); simpl.
  - apply IH. exact Hnd.
  - f_equal. rewrite (IH _ Hnd). apply filter_ext_in. intros q Hq.
    unfold newly_arrived. f_equal. f_equal.
    assert (Hne : id q <> id p).
    { intros Heq. apply Hp. rewrite <- Heq. apply in_map. exact Hq. }
    apply bool_decide_ext. set_solver.
Qed.

(** X5: when the ids of the input are pairwise distinct, a call pushes
    exactly the input processes that have arrived and whose id is not in
    the set, in input order. *)
Theorem CheckArriveProcess_unique_ids ps arrived sched t :
  List.NoDup (map id ps) ->
  CheckArriveProcess ps arrived sched t =
    (ids_of (List.filter (newly_arrived arrived t) ps) ∪ arrived,
     sched ++ map entry_of (List.filter (newly_arrived arrived t) ps)).
Proof.
  intros Hnd. rewrite CheckArriveProcess_admitted, (admitted_filter _ _ _ Hnd).
  reflexivity.
Qed.

Lemma CheckArriveProcess_unique_ids_witness :
  CheckArriveProcess test_processes {[ 2 ]} [] 9 =
    (ids_of (List.filter (newly_arrived {[ 2 ]} 9) test_processes) ∪ {[ 2 ]},
     [] ++ map entry_of (List.filter (newly_arrived {[ 2 ]} 9) test_processes)).
Proof.
  apply (CheckArriveProcess_unique_ids test_processes {[ 2 ]} [] 9).
  exact (pre_unique _ _ test_processes_pre).
Defined.

(** X6: a second call with the same clock value changes nothing. *)
Theorem CheckArriveProcess_idempotent ps arrived sched t :
  CheckArriveProcess ps
    (CheckArriveProcess ps arrived sched t).1
    (CheckArriveProcess ps arrived sched t).2 t =
  CheckArriveProcess ps arrived sched t.
Proof.
  rewrite (CheckArriveProcess_admitted ps arrived sched t). simpl.
  rewrite CheckArriveProcess_admitted.
  rewrite admitted_nil.
  - simpl. rewrite app_nil_r. f_equal. unfold ids_of. simpl. set_solver.
  - intros p Hp Hle. apply admitted_covers; assumption.
Qed.

(** ** Invariants along the trace *)

(** An invariant of the iterations holds after the quanta of any bounded
    run, and describes the state the loop is left in when it returns. *)
Lemma RRTrace_invariant ps ts (I : list Quantum -> State -> Prop) :
  (forall tr s s' q,
     I tr s -> RRIteration ps ts s = Some s' -> RRQuantum ts s = Some q ->
     I (tr ++ [q]) s') ->
  forall fuel tr s,
    I tr s ->
    exists last,
      I (tr ++ RRTrace ps ts fuel s) last /\
      (forall rs, RRLoop ps ts fuel s = Returned rs ->
                  schedule last = [] /\ results last = rs).
Proof.
  intros Hstep. induction fuel as [|fuel IH]; intros tr s Hinv; simpl;
    destruct (RRIteration ps ts s) as [s'|] eqn:Hit.
  - exists s. destruct (RRQuantum ts s); rewrite app_nil_r;
      (split; [exact Hinv | discriminate]).
  - exists s. rewrite app_nil_r. split; [exact Hinv|].
    intros rs H. inversion H. split; [|reflexivity].
    apply (RRIteration_empty ps ts). exact Hit.
  - destruct (RRQuantum ts s) as [q|] eqn:Hquant.
    2:{ unfold RRQuantum in Hquant. unfold RRIteration in Hit.
        destruct (schedule s) as [|[p bt] rest]; discriminate. }
    destruct (IH (tr ++ [q]) s' (Hstep _ _ _ _ Hinv Hit Hquant)) as (last & Hlast & Hret).
    exists last. rewrite <- app_assoc in Hlast. split; assumption.
  - exists s. rewrite app_nil_r. split; [exact Hinv|].
    intros rs H. inversion H. split; [|reflexivity].
    apply (RRIteration_empty ps ts). exact Hit.
Qed.

Lemma queue_ids_entries l :
  map (fun e : Entry => id e.1) (map entry_of l) = map id l.
Proof. induction l as [|x l IH]; simpl; [reflexivity | rewrite IH; reflexivity]. Qed.

Lemma own_count_app p tr q :
  own_count p (tr ++ [q]) =
  own_count p tr + (if q_id q =? id p then 1 else 0).
Proof. unfold own_count. rewrite Zsum_app. simpl. lia. Qed.

Lemma own_count_fresh p tr (arrived : gset Z) :
  Forall (fun q => q_id q ∈ arrived) tr -> id p ∉ arrived -> own_count p tr = 0.
Proof.
  unfold own_count. induction 1 as [|q tr Hq _ IH]; intros Hp; simpl; [reflexivity|].
  rewrite (IH Hp).
  destruct (Z.eqb_spec (q_id q) (id p)) as [Heq|_]; [|reflexivity].
  rewrite Heq in Hq. contradiction.
Qed.

Lemma entries_burst l :
  Zsum (fun e : Entry => burst_time e.1) (map entry_of l) =
  queued_burst (map entry_of l).
Proof.
  unfold queued_burst. induction l as [|x l IH]; simpl; [reflexivity|].
  rewrite IH. reflexivity.
Qed.

Lemma own_time_app p tr q :
  own_time p (tr ++ [q]) = own_time p tr + own_quantum p q.
Proof. unfold own_time. rewrite Zsum_app. simpl. lia. Qed.

Lemma own_time_fresh p tr (arrived : gset Z) :
  Forall (fun q => q_id q ∈ arrived) tr -> id p ∉ arrived -> own_time p tr = 0.
Proof.
  unfold own_time. induction 1 as [|q tr Hq _ IH]; intros Hp; simpl; [reflexivity|].
  rewrite (IH Hp). unfold own_quantum.
  destruct (Z.eqb_spec (q_id q) (id p)) as [Heq|_]; [|reflexivity].
  rewrite Heq in Hq. contradiction.
Qed.

Lemma service_inv_init ps ts s :
  ps <> [] -> Forall (fun p => 1 <= burst_time p) ps ->
  RRInit ps = Some s -> service_inv ps ts [] s.
Proof.
  intros Hne Hb Hinit.
  assert (Hq := RRInit_queue_inv _ _ Hb Hinit).
  assert (Hstart := start_time_init _ _ Hinit).
  destruct (RRInit_cases _ _ Hinit) as (first & Hmin & Ht & Ha & Hs & Hres).
  split; try rewrite Hres; try (constructor; fail).
  - exact Hq.
  - unfold queue_ids. rewrite Hs, queue_ids_entries, app_nil_r.
    apply NoDup_ListNoDup, admitted_NoDup.
  - intros i. unfold queue_ids. rewrite Ha, Hs, queue_ids_entries. simpl.
    rewrite app_nil_r. unfold ids_of. apply elem_of_list_to_set.
  - intros p Hp Hle. rewrite Ha. rewrite <- Hstart, Ht in Hle.
    assert (H := admitted_covers ps ∅ _ p Hp Hle). set_solver.
  - rewrite Hs. rewrite List.Forall_forall. intros e He.
    apply in_map_iff in He as (p & <- & _). simpl. unfold own_time. simpl. lia.
  - rewrite Hs, entries_burst. simpl. lia.
  - rewrite Hs. rewrite List.Forall_forall. intros e He.
    apply in_map_iff in He as (p & <- & _). simpl. unfold own_count. simpl. lia.
Qed.

Lemma service_inv_step ps ts tr s s' q :
  wf_input ps ts -> 1 <= ts -> Forall (fun p => 1 <= burst_time p) ps ->
  service_inv ps ts tr s ->
  RRIteration ps ts s = Some s' -> RRQuantum ts s = Some q ->
  service_inv ps ts (tr ++ [q]) s'.
Proof.
  intros Hwf Hts Hb
    [Hq Hres Hnd Harr Hearly Hquanta Hqt Hrt Htot Hqc Hrc Hbuilt] Hstep Hquant.
  destruct (RRIteration_cases _ _ _ _ Hwf Hts Hq Hstep)
    as (p & bt & rest & e & Hs & He & Hrange & Ht & Ha & Hcase).
  rewrite (RRQuantum_cases ts s p bt rest Hs), <- He in Hquant.
  inversion Hquant; subst q; clear Hquant.
  assert (Hq' := RRIteration_queue_inv _ _ _ _ Hwf Hts Hb Hq Hstep).
  set (adm := admitted ps (arrived_processes s) (time_elapsed s')) in *.
  set (q := {| q_id := id p; q_start := time_elapsed s; q_length := e;
               q_requeued := 0 <? UInt32.sub bt e |}).
  unfold queue_ids, queue_inv in *. rewrite Hs in Hnd, Harr, Hqt, Hq, Hqc.
  simpl in Hnd, Harr.
  apply Forall_cons_iff in Hqt as [Hpt Hqt]. simpl in Hpt.
  apply Forall_cons_iff in Hqc as [Hpc Hqc]. simpl in Hpc.
  apply Forall_cons_iff in Hq as [[Hp Hbt] _]. simpl in Hp, Hbt.
  assert (Hbt_range : bt < UInt32.modulus).
  { destruct Hwf as [Hwf _]. rewrite List.Forall_forall in Hwf.
    destruct (Hwf p Hp) as (_ & _ & H). unfold UInt32.in_range in H. lia. }
  assert (Hfresh : forall i, i ∈ map id adm -> i ∉ arrived_processes s).
  { intros i Hi. apply list_elem_of_In, in_map_iff in Hi as (p0 & <- & Hp0).
    apply admitted_In in Hp0. tauto. }
  assert (Hadm_nd : NoDup (map id adm)) by apply NoDup_ListNoDup, admitted_NoDup.
  assert (Hids : forall i, i ∈ ids_of adm <-> i ∈ map id adm)
    by (intros i; unfold ids_of; apply elem_of_list_to_set).
  assert (Hp_arr : id p ∈ arrived_processes s) by (apply Harr; set_solver).
  assert (Hquanta' : Forall (fun q0 => 1 <= q_length q0 <= ts /\
                                       (q_requeued q0 = true -> q_length q0 = ts) /\
                                       q_id q0 ∈ arrived_processes s') (tr ++ [q])).
  { apply Forall_app; split.
    - eapply List.Forall_impl; [|exact Hquanta]. simpl. intros q0 (H1 & H2 & H3).
      split; [exact H1|]. split; [exact H2|]. rewrite Ha. set_solver.
    - constructor; [|constructor]. simpl. split; [lia|]. split.
      + rewrite (sub_small bt e) by lia. intros H. apply Z.ltb_lt in H. lia.
      + rewrite Ha. set_solver. }
  assert (Hids_tr : Forall (fun q0 => q_id q0 ∈ arrived_processes s) tr).
  { eapply List.Forall_impl; [|exact Hquanta]. simpl. tauto. }
  assert (Hcount_p : (if q_id q =? id p then 1 else 0) = 1).
  { simpl. rewrite Z.eqb_refl. reflexivity. }
  assert (Hcount_other : forall p0, id p0 <> id p ->
                                    (if q_id q =? id p0 then 1 else 0) = 0).
  { intros p0 Hne. simpl.
    destruct (Z.eqb_spec (id p) (id p0)); [congruence | reflexivity]. }
  assert (Hrest_ne : forall e0 : Entry, In e0 rest -> id e0.1 <> id p).
  { intros e0 He0 Heq. apply NoDup_cons in Hnd as [Hnotin _]. apply Hnotin.
    rewrite <- Heq. apply list_elem_of_In, in_or_app. left.
    apply (in_map (fun e1 : Entry => id e1.1)) in He0. exact He0. }
  assert (Hres_ne : forall r, In r (results s) -> id (process r) <> id p).
  { intros r Hr Heq. apply NoDup_cons in Hnd as [Hnotin _]. apply Hnotin.
    rewrite <- Heq. apply list_elem_of_In, in_or_app. right.
    apply (in_map (fun r0 => id (process r0))) in Hr. exact Hr. }
  assert (Hrest_c : Forall (fun e0 : Entry =>
             own_count e0.1 (tr ++ [q]) * ts = burst_time e0.1 - e0.2) rest).
  { rewrite List.Forall_forall in Hqc |- *. intros e0 He0.
    rewrite own_count_app, Hcount_other by (apply Hrest_ne, He0).
    rewrite Z.add_0_r. apply Hqc, He0. }
  assert (Hadm_c : Forall (fun e0 : Entry =>
             own_count e0.1 (tr ++ [q]) * ts = burst_time e0.1 - e0.2)
             (map entry_of adm)).
  { rewrite List.Forall_forall. intros e0 He0.
    apply in_map_iff in He0 as (p0 & <- & Hp0). simpl.
    assert (Hnew : id p0 ∉ arrived_processes s).
    { apply Hfresh, list_elem_of_In, in_map, Hp0. }
    rewrite own_count_app, (own_count_fresh p0 tr (arrived_processes s) Hids_tr Hnew).
    rewrite Hcount_other; [lia|].
    intros Heq. rewrite Heq in Hnew. contradiction. }
  assert (Hres_c : Forall (fun r =>
             (own_count (process r) (tr ++ [q]) - 1) * ts < burst_time (process r)
               <= own_count (process r) (tr ++ [q]) * ts) (results s)).
  { rewrite List.Forall_forall in Hrc |- *. intros r Hr.
    rewrite own_count_app, Hcount_other by (apply Hres_ne, Hr).
    rewrite Z.add_0_r. apply Hrc, Hr. }
  assert (Hown_p : own_quantum p q = e).
  { unfold own_quantum. simpl. rewrite Z.eqb_refl. reflexivity. }
  assert (Hother : forall p0, id p0 <> id p -> own_quantum p0 q = 0).
  { intros p0 Hne. unfold own_quantum. simpl.
    destruct (Z.eqb_spec (id p) (id p0)); [congruence | reflexivity]. }
  assert (Hrest_t : Forall (fun e0 : Entry =>
             own_time e0.1 (tr ++ [q]) = burst_time e0.1 - e0.2) rest).
  { rewrite List.Forall_forall in Hqt |- *. intros e0 He0.
    rewrite own_time_app, (Hqt e0 He0), Hother; [lia|].
    intros Heq. apply NoDup_cons in Hnd as [Hnotin _]. apply Hnotin.
    rewrite <- Heq. apply list_elem_of_In, in_or_app. left.
    apply (in_map (fun e1 : Entry => id e1.1)) in He0. exact He0. }
  assert (Hadm_t : Forall (fun e0 : Entry =>
             own_time e0.1 (tr ++ [q]) = burst_time e0.1 - e0.2)
             (map entry_of adm)).
  { rewrite List.Forall_forall. intros e0 He0.
    apply in_map_iff in He0 as (p0 & <- & Hp0). simpl.
    assert (Hnew : id p0 ∉ arrived_processes s).
    { apply Hfresh, list_elem_of_In, in_map, Hp0. }
    rewrite own_time_app, (own_time_fresh p0 tr (arrived_processes s)), Hother.
    - lia.
    - intros Heq. rewrite Heq in Hnew. contradiction.
    - eapply List.Forall_impl; [|exact Hquanta]. simpl. tauto.
    - exact Hnew. }
  assert (Hres_t : Forall (fun r => own_time (process r) (tr ++ [q]) =
                                    burst_time (process r)) (results s)).
  { rewrite List.Forall_forall in Hrt |- *. intros r Hr.
    rewrite own_time_app, (Hrt r Hr), Hother; [lia|].
    intros Heq. apply NoDup_cons in Hnd as [Hnotin _]. apply Hnotin.
    rewrite <- Heq. apply list_elem_of_In, in_or_app. right.
    apply (in_map (fun r0 => id (process r0))) in Hr. exact Hr. }
  assert (Hearly' : forall p0, In p0 ps -> arrival_time p0 <= start_time ps ->
                               id p0 ∈ arrived_processes s').
  { intros p0 H1 H2. rewrite Ha. specialize (Hearly p0 H1 H2). set_solver. }
  assert (Hentries := entries_burst adm).
  rewrite Hs in Htot. rewrite queued_burst_cons in Htot. simpl in Htot.
  destruct Hcase as [(Hlt & Hs' & Hr')|(Heq & Hs' & Hr')].
  - split; try assumption.
    + rewrite Hr'. exact Hres.
    + unfold queue_ids. rewrite Hs', Hr', !map_app, queue_ids_entries. simpl.
      assert (Hperm : (map (fun e0 : Entry => id e0.1) rest ++ map id adm ++ [id p]) ++
                        result_ids (results s) ≡ₚ
                      map id adm ++ id p :: map (fun e0 : Entry => id e0.1) rest ++
                        result_ids (results s)) by solve_Permutation.
      rewrite Hperm. apply NoDup_app. split; [exact Hadm_nd|]. split; [|exact Hnd].
      intros i Hi Hin. apply (Hfresh i Hi). apply Harr. exact Hin.
    + intros i. unfold queue_ids. rewrite Hs', Hr', Ha, !map_app, queue_ids_entries.
      simpl. specialize (Harr i). specialize (Hids i). set_solver.
    + rewrite Hs'. apply Forall_app; split; [exact Hrest_t|].
      apply Forall_app; split; [exact Hadm_t|].
      constructor; [|constructor]. simpl. rewrite own_time_app, Hown_p. lia.
    + rewrite Hr'. exact Hres_t.
    + rewrite Hs', Hr', !Zsum_app, !queued_burst_app, Hentries.
      change (queued_burst [(p, bt - e)]) with (bt - e + 0).
      change (Zsum q_length [q]) with (e + 0).
      change (Zsum (fun e0 : Entry => burst_time e0.1) [(p, bt - e)])
        with (burst_time p + 0).
      lia.
    + rewrite Hs'. apply Forall_app; split; [exact Hrest_c|].
      apply Forall_app; split; [exact Hadm_c|].
      constructor; [|constructor]. simpl. rewrite own_count_app, Hcount_p.
      assert (e = ts) by lia. nia.
    + rewrite Hr'. exact Hres_c.
    + rewrite Hr'. exact Hbuilt.
  - split; try assumption.
    + rewrite Hr'. apply Forall_app; split; [exact Hres|].
      constructor; [exact Hp | constructor].
    + unfold queue_ids, result_ids. rewrite Hs', Hr', !map_app, queue_ids_entries. simpl.
      assert (Hperm : (map (fun e0 : Entry => id e0.1) rest ++ map id adm) ++
                        map (fun r => id (process r)) (results s) ++ [id p] ≡ₚ
                      map id adm ++ id p :: map (fun e0 : Entry => id e0.1) rest ++
                        map (fun r => id (process r)) (results s)) by solve_Permutation.
      rewrite Hperm. apply NoDup_app. split; [exact Hadm_nd|]. split; [|exact Hnd].
      intros i Hi Hin. apply (Hfresh i Hi). apply Harr. exact Hin.
    + intros i. unfold queue_ids, result_ids in *.
      rewrite Hs', Hr', Ha, !map_app, queue_ids_entries.
      simpl. specialize (Harr i). specialize (Hids i). set_solver.
    + rewrite Hs'. apply Forall_app; split; [exact Hrest_t | exact Hadm_t].
    + rewrite Hr'. apply Forall_app; split; [exact Hres_t|].
      constructor; [|constructor]. simpl. rewrite own_time_app, Hown_p. lia.
    + rewrite Hs', Hr', !Zsum_app, !queued_burst_app, Hentries.
      change (Zsum q_length [q]) with (e + 0).
      change (Zsum (fun r => burst_time (process r))
                [ProcessResult_ctor p (time_elapsed s')])
        with (burst_time p + 0).
      lia.
    + rewrite Hs'. apply Forall_app; split; [exact Hrest_c | exact Hadm_c].
    + rewrite Hr'. apply Forall_app; split; [exact Hres_c|].
      constructor; [|constructor]. simpl. rewrite own_count_app, Hcount_p.
      assert (bt <= ts) by lia. nia.
    + rewrite Hr'. apply Forall_app; split; [exact Hbuilt|].
      constructor; [|constructor]. simpl. split; [reflexivity|].
      rewrite Ht. apply wrap_range.
Qed.

Lemma RRExecute_service ps ts fuel :
  ps <> [] -> wf_input ps ts -> 1 <= ts ->
  Forall (fun p => 1 <= burst_time p) ps ->
  exists last,
    service_inv ps ts (RRExecuteTrace ps ts fuel) last /\
    (forall rs, RRExecute ps ts fuel = Returned rs ->
                schedule last = [] /\ results last = rs).
Proof.
  intros Hne Hwf Hts Hb. destruct (RRInit_defined ps Hne) as [s Hs].
  unfold RRExecute, RRExecuteTrace. rewrite Hs.
  apply (RRTrace_invariant ps ts (service_inv ps ts)
           (fun tr s0 s1 q => service_inv_step ps ts tr s0 s1 q Hwf Hts Hb)
           fuel [] s).
  apply service_inv_init; assumption.
Qed.

Lemma unique_id_eq ps a b :
  List.NoDup (map id ps) -> In a ps -> In b ps -> id a = id b -> a = b.
Proof.
  induction ps as [|x ps IH]; simpl; [tauto|].
  intros Hnd. apply NoDup_cons_iff in Hnd as [Hx Hnd].
  intros [->|Ha] [->|Hb] Heq.
  - reflexivity.
  - exfalso. apply Hx. rewrite Heq. apply in_map. exact Hb.
  - exfalso. apply Hx. rewrite <- Heq. apply in_map. exact Ha.
  - apply IH; assumption.
Qed.

Lemma test_processes_returns :
  RRExecute test_processes kTimeSlice 100 = Returned reference_results.
Proof. vm_compute; reflexivity. Qed.

(** ** What the returned vector holds *)

(** X7: whenever the call returns (time slice and burst times at least
    1, ids unique or not), the vector is not empty, every result belongs to
    an input process, no id has two results, and there are at most as many
    results as input processes. *)
Theorem results_are_distinct_inputs ps ts fuel rs :
  ps <> [] -> wf_input ps ts -> 1 <= ts ->
  Forall (fun p => 1 <= burst_time p) ps ->
  RRExecute ps ts fuel = Returned rs ->
  rs <> [] /\
  Forall (fun r => In (process r) ps) rs /\
  List.NoDup (result_ids rs) /\
  (length rs <= length ps)%nat.
Proof.
  intros Hne Hwf Hts Hb Hret.
  destruct (RRExecute_service ps ts fuel Hne Hwf Hts Hb) as (last & Hinv & Hlast).
  destruct (Hlast rs Hret) as [Hempty <-].
  destruct Hinv as [_ Hres Hnd Harr Hearly _ _ _ _ _ _ _].
  unfold queue_ids in *. rewrite Hempty in *. simpl in Hnd, Harr.
  assert (Hnd' : List.NoDup (result_ids (results last))) by (apply NoDup_ListNoDup, Hnd).
  split; [|split; [exact Hres|split; [exact Hnd'|]]].
  - destruct (min_element_spec ps Hne) as (first & Hmin & Hin & _).
    assert (H : id first ∈ arrived_processes last).
    { apply Hearly; [exact Hin|]. unfold start_time. rewrite Hmin. lia. }
    apply Harr in H. intros Hnil. rewrite Hnil in H. simpl in H.
    apply list_elem_of_In in H. exact H.
  - rewrite <- (length_map id ps).
    rewrite <- (length_map (fun r => id (process r)) (results last)).
    apply NoDup_incl_length; [exact Hnd'|].
    intros i Hi. apply in_map_iff in Hi as (r & <- & Hr).
    rewrite List.Forall_forall in Hres. apply in_map, Hres, Hr.
Qed.

Lemma results_are_distinct_inputs_witness :
  reference_results <> [] /\
  Forall (fun r => In (process r) test_processes) reference_results /\
  List.NoDup (result_ids reference_results) /\
  (length reference_results <= length test_processes)%nat.
Proof.
  apply (results_are_distinct_inputs test_processes kTimeSlice 100).
  - discriminate.
  - exact test_processes_wf.
  - unfold kTimeSlice; lia.
  - exact (pre_burst _ _ test_processes_pre).
  - exact test_processes_returns.
Defined.

(** X9: when every process has arrived by the time the clock starts
    (all arrival times equal the least one), none is lost: the processes of
    the returned results are the input processes, each once. *)
Theorem simultaneous_arrivals_all_served ps ts fuel rs :
  Preconditions ps ts -> wf_input ps ts ->
  Forall (fun p => arrival_time p <= start_time ps) ps ->
  RRExecute ps ts fuel = Returned rs ->
  Permutation ps (map process rs) /\ length rs = length ps.
Proof.
  intros [Hne Hts Hb Hu] Hwf Hall Hret.
  destruct (RRExecute_service ps ts fuel Hne Hwf Hts Hb) as (last & Hinv & Hlast).
  destruct (Hlast rs Hret) as [Hempty <-].
  destruct Hinv as [_ Hres Hnd Harr Hearly _ _ _ _ _ _ _].
  unfold queue_ids in *. rewrite Hempty in *. simpl in Hnd, Harr.
  rewrite List.Forall_forall in Hres, Hall.
  assert (Hperm : Permutation ps (map process (results last))).
  { apply Permutation.NoDup_Permutation.
    - eapply NoDup_map_inv. exact Hu.
    - eapply (NoDup_map_inv id). rewrite map_map. apply NoDup_ListNoDup, Hnd.
    - intros p. split.
      + intros Hp. assert (H : id p ∈ arrived_processes last) by (apply Hearly; auto).
        apply Harr, list_elem_of_In, in_map_iff in H as (r & Hid & Hr).
        apply in_map_iff. exists r. split; [|exact Hr].
        apply (unique_id_eq ps); auto.
      + intros Hp. apply in_map_iff in Hp as (r & <- & Hr). auto. }
  split; [exact Hperm|].
  apply Permutation_length in Hperm. rewrite length_map in Hperm. lia.
Qed.

Lemma together_processes_pre : Preconditions together_processes 3.
Proof. solve_preconditions. Qed.

Lemma together_processes_wf : wf_input together_processes 3.
Proof. solve_wf_input. Qed.

Lemma simultaneous_arrivals_all_served_witness :
  Permutation together_processes (map process together_results) /\
  length together_results = length together_processes.
Proof.
  apply (simultaneous_arrivals_all_served together_processes 3 20).
  - exact together_processes_pre.
  - exact together_processes_wf.
  - repeat constructor; vm_compute; discriminate.
  - vm_compute; reflexivity.
Defined.

(** ** What the quanta look like *)

(** X10: under the preconditions no quantum is longer than the time
    slice and none is empty, and a process is pushed back only after a
    whole time slice, in every prefix of the run. *)
Theorem quantum_lengths_bounded ps ts fuel :
  Preconditions ps ts -> wf_input ps ts ->
  Forall (fun q => 1 <= q_length q <= ts /\
                   (q_requeued q = true -> q_length q = ts))
         (RRExecuteTrace ps ts fuel).
Proof.
  intros [Hne Hts Hb Hu] Hwf.
  destruct (RRExecute_service ps ts fuel Hne Hwf Hts Hb) as (last & Hinv & _).
  eapply List.Forall_impl; [|exact (sv_quanta _ _ _ _ Hinv)].
  simpl. tauto.
Qed.

Lemma quantum_lengths_bounded_witness :
  Forall (fun q => 1 <= q_length q <= kTimeSlice /\
                   (q_requeued q = true -> q_length q = kTimeSlice))
         (RRExecuteTrace test_processes kTimeSlice 100).
Proof.
  apply (quantum_lengths_bounded test_processes kTimeSlice 100).
  - exact test_processes_pre.
  - exact test_processes_wf.
Defined.

(** X12: when the call returns, the quanta given to a process that has a
    result add up to exactly its burst time, and all quanta together to the
    burst times of the processes that have a result. *)
Theorem served_exactly_burst_time ps ts fuel rs :
  Preconditions ps ts -> wf_input ps ts ->
  RRExecute ps ts fuel = Returned rs ->
  Forall (fun r => own_time (process r) (RRExecuteTrace ps ts fuel) =
                   burst_time (process r)) rs /\
  Zsum q_length (RRExecuteTrace ps ts fuel) =
    Zsum (fun r => burst_time (process r)) rs.
Proof.
  intros [Hne Hts Hb Hu] Hwf Hret.
  destruct (RRExecute_service ps ts fuel Hne Hwf Hts Hb) as (last & Hinv & Hlast).
  destruct (Hlast rs Hret) as [Hempty <-].
  split; [exact (sv_result_time _ _ _ _ Hinv)|].
  assert (H := sv_total _ _ _ _ Hinv). rewrite Hempty in H.
  change (queued_burst []) with 0 in H. simpl in H. lia.
Qed.

Lemma served_exactly_burst_time_witness :
  Forall (fun r => own_time (process r) (RRExecuteTrace test_processes kTimeSlice 100) =
                   burst_time (process r)) reference_results /\
  Zsum q_length (RRExecuteTrace test_processes kTimeSlice 100) =
    Zsum (fun r => burst_time (process r)) reference_results.
Proof.
  apply (served_exactly_burst_time test_processes kTimeSlice 100).
  - exact test_processes_pre.
  - exact test_processes_wf.
  - exact test_processes_returns.
Defined.

Lemma run_once_inv_step ps ts tr s s' q :
  wf_input ps ts -> 1 <= ts -> Forall (fun p => 1 <= burst_time p) ps ->
  Forall (fun p => burst_time p <= ts) ps ->
  run_once_inv ps tr s ->
  RRIteration ps ts s = Some s' -> RRQuantum ts s = Some q ->
  run_once_inv ps (tr ++ [q]) s'.
Proof.
  intros Hwf Hts Hb Hshort (Hq & Hids & Hreq) Hstep Hquant.
  destruct (RRIteration_cases _ _ _ _ Hwf Hts Hq Hstep)
    as (p & bt & rest & e & Hs & He & Hrange & Ht & Ha & Hcase).
  rewrite (RRQuantum_cases ts s p bt rest Hs), <- He in Hquant.
  inversion Hquant; subst q; clear Hquant.
  assert (Hq' := RRIteration_queue_inv _ _ _ _ Hwf Hts Hb Hq Hstep).
  unfold queue_inv in Hq. rewrite Hs in Hq.
  apply Forall_cons_iff in Hq as [[Hp Hbt] _]. simpl in Hp, Hbt.
  rewrite List.Forall_forall in Hshort. specialize (Hshort p Hp).
  assert (Hwhole : e = bt) by lia.
  destruct Hcase as [(Hlt & _)|(_ & Hs' & Hr')]; [lia|].
  split; [exact Hq'|]. split.
  - rewrite Hr'. unfold result_ids in *. rewrite !map_app, Hids. reflexivity.
  - apply Forall_app; split; [exact Hreq|]. constructor; [|constructor]. simpl.
    rewrite Hwhole. unfold UInt32.sub. rewrite Z.sub_diag. reflexivity.
Qed.

(** X11: when no burst time exceeds the time slice, no process is ever
    pushed back: each quantum runs a process to completion, so the ids of
    the quanta are the ids of the results, in order. *)
Theorem large_time_slice_runs_each_once ps ts fuel rs :
  Preconditions ps ts -> wf_input ps ts ->
  Forall (fun p => burst_time p <= ts) ps ->
  RRExecute ps ts fuel = Returned rs ->
  Forall (fun q => q_requeued q = false) (RRExecuteTrace ps ts fuel) /\
  map q_id (RRExecuteTrace ps ts fuel) = result_ids rs.
Proof.
  intros [Hne Hts Hb Hu] Hwf Hshort Hret.
  destruct (RRInit_defined ps Hne) as [s Hs].
  unfold RRExecute, RRExecuteTrace in *. rewrite Hs in *.
  destruct (RRTrace_invariant ps ts (run_once_inv ps)
              (fun tr s0 s1 q => run_once_inv_step ps ts tr s0 s1 q Hwf Hts Hb Hshort)
              fuel [] s) as (last & (_ & Hids & Hreq) & Hlast).
  - split; [eapply RRInit_queue_inv; eauto|].
    apply RRInit_cases in Hs as (_ & _ & _ & _ & _ & ->). split; constructor.
  - destruct (Hlast rs Hret) as [_ <-]. split; assumption.
Qed.

Lemma large_time_slice_runs_each_once_witness :
  Forall (fun q => q_requeued q = false) (RRExecuteTrace short_processes 3 20) /\
  map q_id (RRExecuteTrace short_processes 3 20) = result_ids short_results.
Proof.
  apply (large_time_slice_runs_each_once short_processes 3 20).
  - solve_preconditions.
  - solve_wf_input.
  - repeat constructor; simpl; lia.
  - vm_compute; reflexivity.
Defined.

(** ** The clock and the quanta *)

Lemma trace_end_snoc a tr b q :
  trace_end a tr = Some b -> q_start q = b ->
  trace_end a (tr ++ [q]) = Some (b + q_length q).
Proof.
  revert a. induction tr as [|q0 tr IH]; intros a; simpl.
  - intros H Hq. inversion H; subst. rewrite Z.eqb_refl. reflexivity.
  - destruct (q_start q0 =? a); [|discriminate]. apply IH.
Qed.

Lemma trace_end_sum a tr b :
  trace_end a tr = Some b -> b = a + Zsum q_length tr.
Proof.
  revert a. induction tr as [|q0 tr IH]; intros a; simpl.
  - intros H. inversion H. lia.
  - destruct (q_start q0 =? a); [|discriminate].
    intros H. apply IH in H. lia.
Qed.

Lemma clock_advance ps ts tr s s' q :
  wf_input ps ts -> 1 <= ts -> clock_fits ps ->
  queue_inv ps s -> run_inv ps tr s ->
  RRIteration ps ts s = Some s' -> RRQuantum ts s = Some q ->
  q_start q = time_elapsed s /\
  time_elapsed s' = time_elapsed s + q_length q /\
  (schedule s' <> [] \/
   exists p, results s' = results s ++ [ProcessResult_ctor p (time_elapsed s')]).
Proof.
  intros Hwf Hts Hfit Hq Hinv Hstep Hquant.
  destruct (RRIteration_cases _ _ _ _ Hwf Hts Hq Hstep)
    as (p & bt & rest & e & Hs & He & Hrange & Ht & Ha & Hcase).
  rewrite (RRQuantum_cases ts s p bt rest Hs), <- He in Hquant.
  inversion Hquant; subst q; clear Hquant. simpl.
  destruct Hinv as [[Ht0 Hclock] _ _ _ _ _].
  unfold queue_inv in Hq. rewrite Hs in Hq.
  apply Forall_cons_iff in Hq as [_ Hqrest].
  assert (HQ := queued_burst_lower _ _ Hqrest).
  assert (HU := pending_burst_nonneg ps (arrived_processes s)
                  (wf_burst_nonneg _ (proj1 Hwf))).
  unfold remaining_work in Hclock. rewrite Hs, queued_burst_cons in Hclock.
  unfold clock_fits in Hfit.
  split; [reflexivity|]. split; [rewrite Ht; apply add_small; lia|].
  destruct Hcase as [(_ & Hs' & _)|(_ & _ & Hr')].
  - left. rewrite Hs'. intros H. apply app_eq_nil in H as [_ H].
    apply app_eq_nil in H as [_ H]. discriminate.
  - right. exists p. exact Hr'.
Qed.

Lemma clock_inv_step ps ts tr s s' q :
  wf_input ps ts -> 1 <= ts -> clock_fits ps ->
  queue_inv ps s -> clock_inv ps tr s ->
  RRIteration ps ts s = Some s' -> RRQuantum ts s = Some q ->
  clock_inv ps (tr ++ [q]) s'.
Proof.
  intros Hwf Hts Hfit Hq [Hrun Htrace Hlast] Hstep Hquant.
  destruct (clock_advance _ _ _ _ _ _ Hwf Hts Hfit Hq Hrun Hstep Hquant)
    as (Hstart & Hadv & Hend).
  split.
  - eapply run_inv_step; eauto.
  - rewrite Hadv. apply trace_end_snoc; assumption.
  - destruct Hend as [Hne|[p Hr]]; [left; exact Hne|].
    right. rewrite Hr. apply Exists_app. right. constructor. reflexivity.
Qed.

Lemma RRExecute_clock ps ts fuel :
  Preconditions ps ts -> wf_input ps ts -> clock_fits ps ->
  exists last,
    (service_inv ps ts (RRExecuteTrace ps ts fuel) last /\
     clock_inv ps (RRExecuteTrace ps ts fuel) last) /\
    (forall rs, RRExecute ps ts fuel = Returned rs ->
                schedule last = [] /\ results last = rs).
Proof.
  intros [Hne Hts Hb Hu] Hwf Hfit. destruct (RRInit_defined ps Hne) as [s Hs].
  unfold RRExecute, RRExecuteTrace. rewrite Hs.
  apply (RRTrace_invariant ps ts
           (fun tr s0 => service_inv ps ts tr s0 /\ clock_inv ps tr s0)
         ) with (fuel := fuel) (tr := []) (s := s).
  - intros tr s0 s1 q [Hsv Hck] Hstep Hquant. split.
    + eapply service_inv_step; eauto.
    + eapply clock_inv_step; eauto. exact (sv_queue _ _ _ _ Hsv).
  - split; [apply service_inv_init; assumption|]. split.
    + apply run_inv_init; [exact Hne | exact (proj1 Hwf) | exact Hs].
    + simpl. rewrite (start_time_init _ _ Hs). reflexivity.
    + left. assert (H := stuck_init ps s Hne (proj1 Hwf) Hb Hs). apply H.
Qed.

(** X8: under the preconditions and when the clock cannot wrap, an input
    process has a result exactly when it arrives no later than some result
    is completed; a process that arrives after the last completion is
    left out. *)
Theorem served_iff_arrived_in_time ps ts fuel rs p :
  Preconditions ps ts -> wf_input ps ts -> clock_fits ps ->
  RRExecute ps ts fuel = Returned rs ->
  In p ps ->
  (In p (map process rs) <->
   Exists (fun r => arrival_time p <= completion_time r) rs).
Proof.
  intros Hpre Hwf Hfit Hret Hp.
  destruct (RRExecute_clock ps ts fuel Hpre Hwf Hfit) as (last & [Hsv Hck] & Hlast).
  destruct (Hlast rs Hret) as [Hempty <-].
  destruct Hpre as [Hne Hts Hb Hu].
  destruct Hsv as [_ Hres _ Harr _ _ _ _ _ _ _ _].
  destruct Hck as [[_ _ Hpend _ Hok _] _ _].
  unfold queue_ids in Harr. rewrite Hempty in Harr. simpl in Harr.
  rewrite List.Forall_forall in Hres, Hok. split.
  - intros Hin. apply in_map_iff in Hin as (r & Heq & Hr).
    apply List.Exists_exists. exists r. split; [exact Hr|].
    destruct (Hok r Hr) as (_ & _ & _ & H4 & _). rewrite Heq in H4.
    rewrite List.Forall_forall in Hb. specialize (Hb p Hp). lia.
  - intros Hex. apply List.Exists_exists in Hex as (r & Hr & Hle).
    destruct (Hok r Hr) as (_ & _ & _ & _ & H5 & _).
    destruct (decide (id p ∈ arrived_processes last)) as [Hin|Hnin].
    + apply Harr, list_elem_of_In, in_map_iff in Hin as (r' & Hid & Hr').
      apply in_map_iff. exists r'. split; [|exact Hr'].
      apply (unique_id_eq ps); auto.
    + specialize (Hpend p Hp Hnin). lia.
Qed.

Lemma served_iff_arrived_in_time_witness :
  In (mkProcess 1 10 1) (map process [ProcessResult_ctor (mkProcess 0 0 1) 1]) <->
  Exists (fun r => arrival_time (mkProcess 1 10 1) <= completion_time r)
         [ProcessResult_ctor (mkProcess 0 0 1) 1].
Proof.
  apply (served_iff_arrived_in_time idle_gap_processes 3 5).
  - exact idle_gap_pre.
  - exact idle_gap_wf.
  - vm_compute. discriminate.
  - vm_compute; reflexivity.
  - simpl; tauto.
Defined.

(** X13: under the preconditions and when the clock cannot wrap, the
    processor is never idle while the loop runs: the first quantum starts at
    the least arrival time, every quantum starts where the one before it
    ended, and the last one ends at the least arrival time plus the burst
    times of the processes that have a result; no result is completed later
    and one is completed exactly then. *)
Theorem processor_never_idle ps ts fuel rs :
  Preconditions ps ts -> wf_input ps ts -> clock_fits ps ->
  RRExecute ps ts fuel = Returned rs ->
  trace_end (start_time ps) (RRExecuteTrace ps ts fuel) =
    Some (start_time ps + Zsum (fun r => burst_time (process r)) rs) /\
  Forall (fun r => completion_time r <=
                   start_time ps + Zsum (fun r => burst_time (process r)) rs) rs /\
  Exists (fun r => completion_time r =
                   start_time ps + Zsum (fun r => burst_time (process r)) rs) rs.
Proof.
  intros Hpre Hwf Hfit Hret.
  destruct (RRExecute_clock ps ts fuel Hpre Hwf Hfit) as (last & [Hsv Hck] & Hlast).
  destruct (Hlast rs Hret) as [Hempty <-].
  assert (Htot := sv_total _ _ _ _ Hsv). rewrite Hempty in Htot.
  change (queued_burst []) with 0 in Htot. simpl in Htot.
  destruct Hck as [[_ _ _ _ Hok _] Htrace Hend].
  assert (Hfinish := trace_end_sum _ _ _ Htrace).
  assert (Heq : time_elapsed last =
                start_time ps + Zsum (fun r => burst_time (process r)) (results last))
    by lia.
  rewrite <- Heq. split; [exact Htrace|]. split.
  - eapply List.Forall_impl; [|exact Hok]. intros r (_ & _ & _ & _ & H5 & _). exact H5.
  - destruct Hend as [Hne|Hex]; [contradiction | exact Hex].
Qed.

Lemma processor_never_idle_witness :
  trace_end (start_time test_processes)
            (RRExecuteTrace test_processes kTimeSlice 100) =
    Some (start_time test_processes +
          Zsum (fun r => burst_time (process r)) reference_results) /\
  Forall (fun r => completion_time r <=
                   start_time test_processes +
                   Zsum (fun r => burst_time (process r)) reference_results)
         reference_results /\
  Exists (fun r => completion_time r =
                   start_time test_processes +
                   Zsum (fun r => burst_time (process r)) reference_results)
         reference_results.
Proof.
  apply (processor_never_idle test_processes kTimeSlice 100).
  - exact test_processes_pre.
  - exact test_processes_wf.
  - exact test_processes_fit.
  - exact test_processes_returns.
Defined.

(** ** Sorting by arrival time *)

Lemma sorted_by_distinct_arrival_unique l1 l2 :
  StronglySorted arrives_no_later l1 ->
  StronglySorted arrives_no_later l2 ->
  Permutation l1 l2 -> List.NoDup (arrival_times l1) -> l1 = l2.
Proof.
  intros H1. revert l2. induction H1 as [|a l1 Hs1 IH Ha]; intros l2 H2 Hperm Hnd.
  - apply Permutation.Permutation_nil in Hperm. congruence.
  - destruct l2 as [|b l2].
    { apply Permutation_sym, Permutation.Permutation_nil in Hperm. discriminate. }
    simpl in Hnd. apply NoDup_cons_iff in Hnd as [Hfirst Hnd].
    inversion H2 as [|b' l2' Hs2 Hb]; subst.
    assert (Hab : a = b).
    { assert (Hin_a : In a (b :: l2))
        by (eapply Permutation.Permutation_in; [exact Hperm | left; reflexivity]).
      assert (Hin_b : In b (a :: l1))
        by (eapply Permutation.Permutation_in;
            [apply Permutation_sym; exact Hperm | left; reflexivity]).
      destruct Hin_a as [Heq|Hin_a]; [congruence|].
      destruct Hin_b as [Heq|Hin_b]; [congruence|].
      rewrite List.Forall_forall in Ha, Hb.
      specialize (Ha b Hin_b). specialize (Hb a Hin_a).
      unfold arrives_no_later in Ha, Hb.
      exfalso. apply Hfirst. unfold arrival_times.
      replace (arrival_time (process a)) with (arrival_time (process b)) by lia.
      apply (in_map (fun r => arrival_time (process r))). exact Hin_b. }
    subst b. f_equal. apply IH; [exact Hs2 | | exact Hnd].
    eapply Permutation.Permutation_cons_inv. exact Hperm.
Qed.

Lemma arrival_times_perm l1 l2 :
  Permutation l1 l2 -> Permutation (arrival_times l1) (arrival_times l2).
Proof. apply Permutation.Permutation_map. Qed.

Lemma sort_perm_eq rs rs' :
  Permutation rs rs' -> List.NoDup (arrival_times rs) ->
  sort CompareAT_result rs = sort CompareAT_result rs'.
Proof.
  intros Hperm Hnd. apply sorted_by_distinct_arrival_unique.
  - apply sort_sorted.
  - apply sort_sorted.
  - rewrite <- (sort_perm CompareAT_result rs), <- (sort_perm CompareAT_result rs').
    exact Hperm.
  - eapply Permutation.Permutation_NoDup; [|exact Hnd].
    apply arrival_times_perm, sort_perm.
Qed.

(** X14: when the arrival times are pairwise distinct, what is printed
    does not depend on the order of the vector that is passed. *)
Theorem operator_lshift_order_independent ostream rs rs' :
  Permutation rs rs' -> List.NoDup (arrival_times rs) ->
  operator_lshift ostream rs = operator_lshift ostream rs'.
Proof.
  intros Hperm Hnd. unfold operator_lshift.
  rewrite (sort_perm_eq rs rs' Hperm Hnd). reflexivity.
Qed.

Lemma operator_lshift_order_independent_witness :
  operator_lshift EmptyString reference_results =
  operator_lshift EmptyString (rev reference_results).
Proof.
  apply (operator_lshift_order_independent EmptyString reference_results
           (rev reference_results)).
  - apply Permutation.Permutation_rev.
  - simpl. repeat (constructor; [solve_not_in|]). constructor.
Defined.

(** ** The self-test *)

Lemma results_eqb_eq a b : results_eqb a b = true <-> a = b.
Proof.
  revert b. induction a as [|x a IH]; intros [|y b]; simpl;
    try (split; [discriminate | discriminate]); [tauto|].
  rewrite andb_true_iff, ProcessResult_eqb_eq_iff, IH.
  split; [intros [-> ->]; reflexivity | intros H; inversion H; tauto].
Qed.

(** X16: the assertion of the self-test accepts a vector exactly when it
    holds the five expected results, in any order. *)
Theorem Test_assertion_iff rs :
  Test_assertion rs = true <-> Permutation rs correct_results.
Proof.
  unfold Test_assertion. rewrite results_eqb_eq. split.
  - intros Heq.
    rewrite (sort_perm CompareAT_result rs), Heq.
    symmetry. apply sort_perm.
  - intros Hperm. symmetry. apply sort_perm_eq.
    + symmetry. exact Hperm.
    + simpl. repeat (constructor; [solve_not_in|]). constructor.
Qed.

(** ** Size of the printed table *)

Lemma table_line_length cells :
  Forall cell_ok cells ->
  String.length (table_line cells) = (kCellWidth * length cells + 1)%nat.
Proof.
  unfold table_line, concat_strings. intros H.
  rewrite length_append. change (String.length newline) with 1%nat.
  f_equal. induction H as [|c cells [_ Hc] _ IH]; [reflexivity|].
  cbn [map fold_right length]. rewrite length_append, Hc, IH. lia.
Qed.

Lemma concat_strings_length n lines :
  Forall (fun l => String.length l = n) lines ->
  String.length (concat_strings lines) = (n * length lines)%nat.
Proof.
  unfold concat_strings. induction 1 as [|l lines Hl _ IH]; [simpl; lia|].
  cbn [fold_right length]. rewrite length_append, Hl, IH. lia.
Qed.

(** X15: every line that is printed, the header included, is 103
    characters long (six cells of 17 and the end of line), so a vector of
    [n] results adds [103 * (n + 1)] characters to the stream. *)
Theorem operator_lshift_length ostream rs :
  Forall wf_result rs ->
  String.length (operator_lshift ostream rs) =
    (String.length ostream + kLineWidth * S (length rs))%nat.
Proof.
  intros _. unfold operator_lshift.
  rewrite print_rows_lines, header_line, !length_append.
  rewrite (table_line_length _ header_cells_ok).
  rewrite (concat_strings_length kLineWidth).
  - rewrite !length_map, sort_length. unfold kLineWidth. simpl length. lia.
  - rewrite List.Forall_forall. intros l Hl.
    apply in_map_iff in Hl as (cells & <- & Hc).
    apply in_map_iff in Hc as (r & <- & _).
    rewrite (table_line_length _ (row_cells_ok r)). reflexivity.
Qed.

Lemma operator_lshift_length_witness :
  String.length (operator_lshift EmptyString sample_results) =
    (String.length EmptyString + kLineWidth * S (length sample_results))%nat.
Proof.
  apply (operator_lshift_length EmptyString sample_results).
  repeat constructor; vm_compute; congruence.
Defined.

(** ** Repeated ids *)

(** X17: when an id occurs twice in the input, the returned vector is
    strictly shorter than the input: only one process per id is ever
    admitted. *)
Theorem repeated_id_loses_a_process ps ts fuel rs :
  wf_input ps ts -> 1 <= ts ->
  Forall (fun p => 1 <= burst_time p) ps ->
  ~ List.NoDup (map id ps) ->
  RRExecute ps ts fuel = Returned rs ->
  (length rs < length ps)%nat.
Proof.
  intros Hwf Hts Hb Hdup Hret.
  assert (Hne : ps <> []) by (intros ->; apply Hdup; constructor).
  destruct (RRExecute_service ps ts fuel Hne Hwf Hts Hb) as (last & Hinv & Hlast).
  destruct (Hlast rs Hret) as [Hempty <-].
  destruct Hinv as [_ Hres Hnd _ _ _ _ _ _ _ _ _].
  unfold queue_ids in Hnd. rewrite Hempty in Hnd. simpl in Hnd.
  apply NoDup_ListNoDup in Hnd.
  assert (Hincl : incl (result_ids (results last)) (map id ps)).
  { intros i Hi. apply in_map_iff in Hi as (r & <- & Hr).
    rewrite List.Forall_forall in Hres. apply in_map, Hres, Hr. }
  assert (Hle := NoDup_incl_length Hnd Hincl).
  unfold result_ids in Hle. rewrite !length_map in Hle.
  destruct (Nat.eq_dec (length (results last)) (length ps)) as [Heq|Hneq]; [|lia].
  exfalso. apply Hdup. eapply NoDup_incl_NoDup; [exact Hnd | | exact Hincl].
  unfold result_ids. rewrite !length_map. lia.
Qed.

Lemma repeated_id_loses_a_process_witness :
  (length [ ProcessResult_ctor (mkProcess 0 0 2) 2;
            ProcessResult_ctor (mkProcess 1 1 1) 3 ] <
   length twin_processes)%nat.
Proof.
  apply (repeated_id_loses_a_process twin_processes 3 20).
  - solve_wf_input.
  - lia.
  - repeat constructor; simpl; lia.
  - simpl. intros H. apply NoDup_cons_iff in H as [H _]. apply H. left; reflexivity.
  - vm_compute; reflexivity.
Defined.

(** ** A process on its own *)

(** X18: a single process, whatever the time slice (at least 1), gets the
    processor from its arrival on: it completes at arrival time plus burst
    time, with a turnaround time equal to its burst time and a waiting time
    of zero. *)
Theorem lone_process_completes_unhindered p ts :
  wf_process p -> UInt32.in_range ts -> 1 <= ts -> 1 <= burst_time p ->
  arrival_time p + burst_time p <= UInt32.max_value ->
  RRExecute [p] ts (Z.to_nat (burst_time p)) =
    Returned [ mkProcessResult p (arrival_time p + burst_time p)
                                 (burst_time p) 0 ].
Proof.
  intros Hp Hts Hts1 Hb Hmax.
  assert (Hpre : Preconditions [p] ts).
  { split; [discriminate | exact Hts1 | repeat constructor; exact Hb |].
    simpl. constructor; [simpl; tauto | constructor]. }
  assert (Hwf : wf_input [p] ts)
    by (split; [constructor; [exact Hp | constructor] | exact Hts]).
  assert (Hstart : start_time [p] = arrival_time p) by reflexivity.
  assert (Hfit : clock_fits [p]).
  { unfold clock_fits. rewrite Hstart. unfold total_burst. simpl. lia. }
  assert (Hret : exists rs, RRExecute [p] ts (Z.to_nat (burst_time p)) = Returned rs).
  { destruct (RRInit_defined [p]) as [s Hs]; [discriminate|].
    unfold RRExecute. rewrite Hs.
    apply RRLoop_terminates; try assumption.
    - exact (pre_burst _ _ Hpre).
    - eapply RRInit_queue_inv; [exact (pre_burst _ _ Hpre) | exact Hs].
    - assert (H := RRInit_remaining_work [p] s (proj1 Hwf) Hs).
      unfold total_burst in H. simpl in H. lia. }
  destruct Hret as [rs Hret]. rewrite Hret. f_equal.
  destruct (RRExecute_clock [p] ts (Z.to_nat (burst_time p)) Hpre Hwf Hfit)
    as (last & [Hsv Hck] & Hlast).
  destruct (Hlast rs Hret) as [Hempty <-].
  assert (Htot := sv_total _ _ _ _ Hsv). rewrite Hempty in Htot.
  change (queued_burst []) with 0 in Htot. simpl in Htot.
  destruct Hsv as [_ Hres Hnd _ _ _ _ _ _ _ _ _].
  destruct Hck as [[_ _ _ _ Hok _] Htrace Hend].
  apply trace_end_sum in Htrace. rewrite Hstart in Htrace.
  unfold queue_ids in Hnd. rewrite Hempty in Hnd. simpl in Hnd.
  destruct Hend as [Hne|Hex]; [contradiction|].
  destruct (results last) as [|r l]; [inversion Hex|].
  apply Forall_cons_iff in Hres as [Hr Hl]. simpl in Hr.
  destruct Hr as [Hr|[]].
  assert (Hnil : l = []).
  { destruct l as [|r' l]; [reflexivity|]. exfalso.
    apply Forall_cons_iff in Hl as [[Hr'|[]] _].
    simpl in Hnd. apply NoDup_cons in Hnd as [Hnotin _]. apply Hnotin.
    rewrite <- Hr, Hr'. left. }
  subst l. simpl in Htot.
  apply Forall_cons_iff in Hok as [(_ & H2 & H3 & H4 & H5 & _) _].
  destruct r as [q c t w]. simpl in *. subst q. f_equal. f_equal; lia.
Qed.

Lemma lone_process_completes_unhindered_witness :
  RRExecute [sample_process] 3 (Z.to_nat (burst_time sample_process)) =
    Returned [ mkProcessResult sample_process
                 (arrival_time sample_process + burst_time sample_process)
                 (burst_time sample_process) 0 ].
Proof.
  apply (lone_process_completes_unhindered sample_process 3).
  - repeat split; simpl; unfold UInt32.modulus; simpl; lia.
  - unfold UInt32.in_range, UInt32.modulus; simpl; lia.
  - lia.
  - simpl; lia.
  - vm_compute. discriminate.
Defined.

(** ** How often a process is dispatched *)

(** X19: when the call returns, a process that has a result was given
    the processor exactly [ceil(burst_time / time_slice)] times. *)
Theorem dispatch_count ps ts fuel rs :
  Preconditions ps ts -> wf_input ps ts ->
  RRExecute ps ts fuel = Returned rs ->
  Forall (fun r => own_count (process r) (RRExecuteTrace ps ts fuel) =
                   (burst_time (process r) + ts - 1) / ts) rs.
Proof.
  intros [Hne Hts Hb Hu] Hwf Hret.
  destruct (RRExecute_service ps ts fuel Hne Hwf Hts Hb) as (last & Hinv & Hlast).
  destruct (Hlast rs Hret) as [_ <-].
  eapply List.Forall_impl; [|exact (sv_result_count _ _ _ _ Hinv)].
  simpl. intros r [Hlow Hhigh].
  apply (Z.div_unique _ _ _
           (burst_time (process r) + ts - 1 -
            ts * own_count (process r) (RRExecuteTrace ps ts fuel))); lia.
Qed.

Lemma dispatch_count_witness :
  Forall (fun r => own_count (process r)
                     (RRExecuteTrace test_processes kTimeSlice 100) =
                   (burst_time (process r) + kTimeSlice - 1) / kTimeSlice)
         reference_results.
Proof.
  apply (dispatch_count test_processes kTimeSlice 100).
  - exact test_processes_pre.
  - exact test_processes_wf.
  - exact test_processes_returns.
Defined.

(** ** Results as values *)

(** X21: whenever the call returns, every result is what the
    constructor builds from its process and its completion time, and all
    its fields are 32-bit values; the vector can be handed to the
    printer. *)
Theorem results_are_constructed ps ts fuel rs :
  ps <> [] -> wf_input ps ts -> 1 <= ts ->
  Forall (fun p => 1 <= burst_time p) ps ->
  RRExecute ps ts fuel = Returned rs ->
  Forall (fun r => r = ProcessResult_ctor (process r) (completion_time r)) rs /\
  Forall wf_result rs.
Proof.
  intros Hne Hwf Hts Hb Hret.
  destruct (RRExecute_service ps ts fuel Hne Hwf Hts Hb) as (last & Hinv & Hlast).
  destruct (Hlast rs Hret) as [_ <-].
  assert (Hbuilt := sv_built _ _ _ _ Hinv).
  assert (Hres := sv_results _ _ _ _ Hinv).
  rewrite List.Forall_forall in Hbuilt, Hres. split.
  - rewrite List.Forall_forall. intros r Hr. apply Hbuilt, Hr.
  - rewrite List.Forall_forall. intros r Hr.
    destruct (Hbuilt r Hr) as [Heq Hc]. specialize (Hres r Hr).
    destruct Hwf as [Hwf _]. rewrite List.Forall_forall in Hwf.
    specialize (Hwf _ Hres). rewrite Heq.
    unfold wf_result, ProcessResult_ctor. simpl.
    repeat split; try apply Hwf; try apply Hc; apply wrap_range.
Qed.

Lemma results_are_constructed_witness :
  Forall (fun r => r = ProcessResult_ctor (process r) (completion_time r))
         reference_results /\
  Forall wf_result reference_results.
Proof.
  apply (results_are_constructed test_processes kTimeSlice 100).
  - discriminate.
  - exact test_processes_wf.
  - unfold kTimeSlice; lia.
  - exact (pre_burst _ _ test_processes_pre).
  - exact test_processes_returns.
Defined.

(** ** Number of iterations *)

Lemma budget_inv_step ps ts tr s s' q :
  wf_input ps ts -> 1 <= ts -> Forall (fun p => 1 <= burst_time p) ps ->
  budget_inv ps tr s ->
  RRIteration ps ts s = Some s' -> RRQuantum ts s = Some q ->
  budget_inv ps (tr ++ [q]) s'.
Proof.
  intros Hwf Hts Hb (Hq & Hlen & Hsum) Hstep Hquant.
  destruct (RRIteration_cases _ _ _ _ Hwf Hts Hq Hstep)
    as (p & bt & rest & e & Hs & He & Hrange & _).
  assert (Hby := RRIteration_remaining_work_by _ _ _ _ _ _ _ Hwf Hts Hq Hstep Hs).
  rewrite (RRQuantum_cases ts s p bt rest Hs), <- He in Hquant.
  inversion Hquant; subst q; clear Hquant.
  split; [eapply RRIteration_queue_inv; eauto|]. split.
  - apply Forall_app; split; [exact Hlen|]. constructor; [simpl; lia | constructor].
  - rewrite Zsum_app. simpl. lia.
Qed.

Lemma length_le_Zsum tr :
  Forall (fun q => 1 <= q_length q) tr ->
  Z.of_nat (length tr) <= Zsum q_length tr.
Proof.
  induction 1 as [|q tr Hq _ IH]; [simpl; lia|].
  cbn [length Zsum fold_right]. unfold Zsum in IH. lia.
Qed.

(** X20: with a time slice of at least 1 and burst times of at least 1,
    ids unique or not, the loop body runs at most as many times as the
    burst times add up to, and the call returns within that many
    iterations. *)
Theorem iterations_bounded ps ts fuel :
  ps <> [] -> wf_input ps ts -> 1 <= ts ->
  Forall (fun p => 1 <= burst_time p) ps ->
  Z.of_nat (length (RRExecuteTrace ps ts fuel)) <= total_burst ps /\
  exists rs, RRExecute ps ts (Z.to_nat (total_burst ps)) = Returned rs.
Proof.
  intros Hne Hwf Hts Hb. destruct (RRInit_defined ps Hne) as [s Hs].
  assert (Hq := RRInit_queue_inv _ _ Hb Hs).
  assert (Hrw := RRInit_remaining_work _ _ (proj1 Hwf) Hs).
  assert (Hrw0 := remaining_work_nonneg _ _ (proj1 Hwf) Hq).
  unfold RRExecute, RRExecuteTrace. rewrite Hs. split.
  - destruct (RRTrace_invariant ps ts (budget_inv ps)
                (fun tr s0 s1 q => budget_inv_step ps ts tr s0 s1 q Hwf Hts Hb)
                fuel [] s) as (last & (Hq' & Hlen & Hsum) & _).
    + split; [exact Hq|]. split; [constructor | simpl; lia].
    + simpl in Hlen, Hsum.
      assert (H1 := length_le_Zsum _ Hlen).
      assert (H2 := remaining_work_nonneg _ _ (proj1 Hwf) Hq'). lia.
  - apply RRLoop_terminates; auto. lia.
Qed.

Lemma iterations_bounded_witness :
  Z.of_nat (length (RRExecuteTrace twin_processes 3 20)) <=
    total_burst twin_processes /\
  exists rs, RRExecute twin_processes 3
               (Z.to_nat (total_burst twin_processes)) = Returned rs.
Proof.
  apply (iterations_bounded twin_processes 3 20).
  - discriminate.
  - solve_wf_input.
  - lia.
  - repeat constructor; simpl; lia.
Defined.

(** ** The queue is first in, first out *)

Lemma RRIteration_schedule ps ts s x rest :
  schedule s = x :: rest ->
  exists s' pushed,
    RRIteration ps ts s = Some s' /\ schedule s' = rest ++ pushed.
Proof.
  intros Hs. unfold RRIteration. rewrite Hs. destruct x as [p bt].
  rewrite CheckArriveProcess_admitted.
  destruct (0 <? UInt32.sub bt (if ts <? bt then ts else bt)).
  - eexists. eexists. split; [reflexivity|]. simpl. rewrite <- app_assoc. reflexivity.
  - eexists. eexists. split; [reflexivity|]. simpl. reflexivity.
Qed.

(** X22: an entry that is [k] places behind the front of the queue is at
    the front after exactly [k] iterations, with its remaining burst time
    untouched: nothing overtakes it and the loop cannot end before it is
    served. *)
Theorem queue_is_fifo ps ts k s (e : Entry) :
  schedule s !! k = Some e ->
  exists s', RRSteps ps ts k s = Some s' /\ schedule s' !! 0%nat = Some e.
Proof.
  revert s. induction k as [|k IH]; intros s Hk; simpl.
  - exists s. split; [reflexivity | exact Hk].
  - destruct (schedule s) as [|x rest] eqn:Hs; [discriminate|]. simpl in Hk.
    destruct (RRIteration_schedule ps ts s x rest Hs) as (s1 & pushed & Hstep & Hs1).
    rewrite Hstep. apply IH. rewrite Hs1. apply lookup_app_l_Some. exact Hk.
Qed.

Lemma queue_is_fifo_witness :
  exists s', RRSteps tie_processes 3 2 tie_state1 = Some s' /\
             schedule s' !! 0%nat = Some (mkProcess 0 0 5, 2).
Proof.
  apply (queue_is_fifo tie_processes 3 2 tie_state1 (mkProcess 0 0 5, 2)).
  reflexivity.
Defined.
